(** * The default module port of JerryScript: resolver and module cache

    A shallow embedding of [jerry-port/default/default-module.c]
    (the [__unix__] configuration: ['/'] is the only path separator and
    canonicalisation is [realpath]), together with the properties of path
    resolution, of the linked list of module records and of its eviction.

    Conventions of the embedding.
    - A [jerry_char_t] is a [byte]; a character buffer of [n + 1] bytes whose
      last byte is the terminating NUL is the list of its first [n] bytes.
      [strlen], [strcmp] and [cstr] read such a buffer as C does, up to the
      first NUL byte.
    - Lengths and indices ([size_t], [jerry_size_t]) are [nat]: they measure
      buffers that exist in memory, so their arithmetic does not wrap.
    - The records of the cache live in a heap addressed by pointers; a
      pointer that may be NULL is an [option].
    - The engine and the platform are collaborators: their state is part of
      the [world], and a function of the port is a state transformer that
      may also crash (a dereference of NULL or of freed memory) or fail to
      terminate (a walk over a cyclic list). *)

From Stdlib Require Import Strings.Byte Strings.String ZArith Lia.
From stdpp Require Import gmap strings list fin_maps functions.

(** ** Characters and C strings *)

Definition jerry_char_t := byte.

#[global] Instance byte_eq_decision : EqDecision byte := Byte.byte_eq_dec.

(** The path separator of the non-Windows build. *)
Definition SEP : jerry_char_t := x2f.

(** The bytes of a string literal. *)
Definition bytes (s : string) : list jerry_char_t := list_byte_of_string s.

(** [strlen]: the number of bytes before the first NUL. *)
Fixpoint strlen (s : list jerry_char_t) : nat :=
  match s with
  | [] => 0
  | c :: s' => if bool_decide (c = x00) then 0 else S (strlen s')
  end.

(** The C string a buffer holds. *)
Definition cstr (s : list jerry_char_t) : list jerry_char_t := take (strlen s) s.

(** [s[i]], for [i] up to the terminating NUL. *)
Definition char_at (s : list jerry_char_t) (i : nat) : jerry_char_t := nth i s x00.

(** [strcmp], as the difference of the first pair of bytes that differ. *)
Fixpoint strcmp (a b : list jerry_char_t) : Z :=
  match a, b with
  | [], [] => 0
  | [], y :: _ => (0 - Z.of_N (Byte.to_N y))%Z
  | x :: _, [] => Z.of_N (Byte.to_N x)
  | x :: a', y :: b' =>
      if bool_decide (x = y)
      then (if bool_decide (x = x00) then 0%Z else strcmp a' b')
      else (Z.of_N (Byte.to_N x) - Z.of_N (Byte.to_N y))%Z
  end.

(** ** jerry_port_get_directory_end *)

(** The loop [while (end_p > path_p)]: [end_] is [end_p - path_p]. *)
Fixpoint jerry_port_get_directory_end_loop (path_p : list jerry_char_t) (end_ : nat) : nat :=
  match end_ with
  | 0 => 0
  | S e =>
      if bool_decide (char_at path_p e = SEP)
      then S e
      else jerry_port_get_directory_end_loop path_p e
  end.

Definition jerry_port_get_directory_end (path_p : list jerry_char_t) : nat :=
  jerry_port_get_directory_end_loop path_p (strlen path_p).

(** ** Values of the engine *)

(** Modelled from the spec: the engine's value handle, declared in the
    engine's public header.  The port only copies, releases and compares
    handles and asks whether one is an object or an exception; a handle is a
    type tag and a reference, and two handles are identical when both agree. *)
Inductive jerry_value_t :=
| jerry_undefined_value
| jerry_string_value (ref : N)
| jerry_object_value (ref : N)
| jerry_exception_value (ref : N).

#[global] Instance jerry_value_eq_decision : EqDecision jerry_value_t.
Proof. solve_decision. Defined.

(** Modelled from the spec: the exception kinds of the engine, of which the
    port uses [JERRY_ERROR_COMMON] and [JERRY_ERROR_SYNTAX]. *)
Inductive jerry_error_t :=
| JERRY_ERROR_NONE
| JERRY_ERROR_COMMON
| JERRY_ERROR_EVAL
| JERRY_ERROR_RANGE
| JERRY_ERROR_REFERENCE
| JERRY_ERROR_SYNTAX
| JERRY_ERROR_TYPE
| JERRY_ERROR_URI
| JERRY_ERROR_AGGREGATE.

(** Modelled from the spec: "check is this value an object". *)
Definition jerry_value_is_object (v : jerry_value_t) : bool :=
  match v with jerry_object_value _ => true | _ => false end.

(** Modelled from the spec: whether a value is a thrown exception. *)
Definition jerry_value_is_exception (v : jerry_value_t) : bool :=
  match v with jerry_exception_value _ => true | _ => false end.

(** ** The data model of the port *)

Definition ptr := positive.

(** A module descriptor. *)
Record jerry_port_module_t := {
  next_p : option ptr;
  path_p : list jerry_char_t;
  base_path_length : nat;
  realm : jerry_value_t;
  module : jerry_value_t
}.

(** Default module manager. *)
Record jerry_port_module_manager_t := {
  module_head_p : option ptr
}.

(** ** The world: engine, platform and the memory of the port *)

(** Modelled from the spec: the state of the engine that the port can
    observe through the engine's interface: the bytes of string values, the
    native pointer attached to an object under
    [jerry_port_module_native_info], the kind and message of the exceptions
    made by [jerry_throw_sz], the reference counts of the handles, the
    current realm, and what the parser answers for a source and a source
    name. *)
Record engine := {
  e_strings : gmap N (list jerry_char_t);
  e_native : gmap N ptr;
  e_errors : gmap N (jerry_error_t * string);
  e_refs : jerry_value_t → nat;
  e_realm : jerry_value_t;
  e_parse : list byte → list jerry_char_t → jerry_value_t
}.

(** A file as [stat], [fopen], [ftell] and [fread] see it. *)
Record file := {
  f_is_dir : bool;
  f_can_open : bool;
  f_data : list byte;
  f_fread : nat
}.

(** The platform: the file system by C-string path, what [realpath] answers,
    and for each coming call of [malloc] whether it fails (none fails once
    the schedule is used up). *)
Record platform := {
  p_fs : list jerry_char_t → option file;
  p_realpath : list jerry_char_t → option (list jerry_char_t);
  p_oom : list bool
}.

(** The calls to the collaborators that the properties speak of: each call
    of [jerry_port_read_source], of [jerry_parse] and of [jerry_port_log]
    appends its event to the trace of the world. *)
Inductive event :=
| ev_read_source (file_name : list jerry_char_t)
| ev_parse (source : list byte) (source_name : list jerry_char_t)
| ev_log (format : string) (argument : list jerry_char_t).

Record world := {
  w_engine : engine;
  w_platform : platform;
  w_heap : gmap ptr jerry_port_module_t;
  w_manager : jerry_port_module_manager_t;
  w_trace : list event
}.

Definition with_engine (f : engine → engine) (w : world) : world :=
  {| w_engine := f (w_engine w); w_platform := w_platform w; w_heap := w_heap w;
     w_manager := w_manager w; w_trace := w_trace w |}.

Definition with_platform (f : platform → platform) (w : world) : world :=
  {| w_engine := w_engine w; w_platform := f (w_platform w); w_heap := w_heap w;
     w_manager := w_manager w; w_trace := w_trace w |}.

Definition with_heap (f : gmap ptr jerry_port_module_t → gmap ptr jerry_port_module_t)
    (w : world) : world :=
  {| w_engine := w_engine w; w_platform := w_platform w; w_heap := f (w_heap w);
     w_manager := w_manager w; w_trace := w_trace w |}.

Definition with_manager (m : jerry_port_module_manager_t) (w : world) : world :=
  {| w_engine := w_engine w; w_platform := w_platform w; w_heap := w_heap w;
     w_manager := m; w_trace := w_trace w |}.

Definition with_trace (f : list event → list event) (w : world) : world :=
  {| w_engine := w_engine w; w_platform := w_platform w; w_heap := w_heap w;
     w_manager := w_manager w; w_trace := f (w_trace w) |}.

(** ** The monad of the port's functions *)

Inductive outcome (A : Type) :=
| Ok (a : A) (w : world)
| Crash
| Diverge.

Arguments Ok {A} a w.
Arguments Crash {A}.
Arguments Diverge {A}.

Definition M (A : Type) : Type := world → outcome A.

#[global] Instance M_ret : MRet M := λ A a w, Ok a w.

#[global] Instance M_bind : MBind M := λ A B k m w,
  match m w with
  | Ok a w' => k a w'
  | Crash => Crash
  | Diverge => Diverge
  end.

Definition crash {A} : M A := λ _, Crash.
Definition diverge {A} : M A := λ _, Diverge.
Definition get : M world := λ w, Ok w w.
Definition modify (f : world → world) : M unit := λ w, Ok tt (f w).
Definition emit (e : event) : M unit := modify (with_trace (λ t, t ++ [e])).

(** Reading the record a pointer points to; the pointer must be neither NULL
    nor freed. *)
Definition load (p : ptr) : M jerry_port_module_t :=
  λ w, match w_heap w !! p with
       | Some m => Ok m w
       | None => Crash
       end.

(** ** The engine's interface *)

Definition set_refs (f : (jerry_value_t → nat) → jerry_value_t → nat) (e : engine) : engine :=
  {| e_strings := e_strings e; e_native := e_native e; e_errors := e_errors e;
     e_refs := f (e_refs e); e_realm := e_realm e; e_parse := e_parse e |}.

Definition set_strings (f : gmap N (list jerry_char_t) → gmap N (list jerry_char_t))
    (e : engine) : engine :=
  {| e_strings := f (e_strings e); e_native := e_native e; e_errors := e_errors e;
     e_refs := e_refs e; e_realm := e_realm e; e_parse := e_parse e |}.

Definition set_native (f : gmap N ptr → gmap N ptr) (e : engine) : engine :=
  {| e_strings := e_strings e; e_native := f (e_native e); e_errors := e_errors e;
     e_refs := e_refs e; e_realm := e_realm e; e_parse := e_parse e |}.

Definition set_errors (f : gmap N (jerry_error_t * string) → gmap N (jerry_error_t * string))
    (e : engine) : engine :=
  {| e_strings := e_strings e; e_native := e_native e; e_errors := f (e_errors e);
     e_refs := e_refs e; e_realm := e_realm e; e_parse := e_parse e |}.

(** Modelled from the spec: "acquire a counted reference": the same handle,
    with one more reference. *)
Definition jerry_value_copy (v : jerry_value_t) : M jerry_value_t :=
  modify (with_engine (set_refs (λ c, <[v := S (c v)]> c)));;
  mret v.

(** Modelled from the spec: "release a counted reference". *)
Definition jerry_value_free (v : jerry_value_t) : M unit :=
  modify (with_engine (set_refs (λ c, <[v := pred (c v)]> c))).

(** Modelled from the spec: the undefined value, the sentinel of "all
    realms". *)
Definition jerry_undefined : M jerry_value_t := mret jerry_undefined_value.

(** Modelled from the spec: the handle of the current realm, as a new
    counted reference. *)
Definition jerry_current_realm : M jerry_value_t :=
  w ← get;
  jerry_value_copy (e_realm (w_engine w)).

(** The UTF-8 bytes of a string value; a value that is not a string has
    none. *)
Definition string_bytes (e : engine) (v : jerry_value_t) : list jerry_char_t :=
  match v with
  | jerry_string_value r => default [] (e_strings e !! r)
  | _ => []
  end.

(** Modelled from the spec: the size in bytes of the UTF-8 form of a string
    value. *)
Definition jerry_string_size (v : jerry_value_t) : M nat :=
  w ← get;
  mret (length (string_bytes (w_engine w) v)).

(** Modelled from the spec: "decode [specifier_value] to a UTF-8 byte
    buffer": what is written to a buffer of [buffer_size] bytes. *)
Definition jerry_string_to_buffer (v : jerry_value_t) (buffer_size : nat)
    : M (list jerry_char_t) :=
  w ← get;
  mret (take buffer_size (string_bytes (w_engine w) v)).

(** Modelled from the spec: a new string value with the given bytes. *)
Definition jerry_string (buffer_p : list jerry_char_t) (buffer_size : nat) : M jerry_value_t :=
  w ← get;
  let r := fresh (dom (e_strings (w_engine w))) in
  modify (with_engine (set_strings (<[r := take buffer_size buffer_p]>)));;
  jerry_value_copy (jerry_string_value r).

(** Modelled from the spec: a new exception value of the given kind and
    message. *)
Definition jerry_throw_sz (kind : jerry_error_t) (message : string) : M jerry_value_t :=
  w ← get;
  let r := fresh (dom (e_errors (w_engine w))) in
  modify (with_engine (set_errors (<[r := (kind, message)]>)));;
  jerry_value_copy (jerry_exception_value r).

(** Modelled from the spec: "parse(source_bytes, length, options{module_flag,
    source_name}) → module_value | exception". *)
Definition jerry_parse (source_p : list byte) (source_size : nat) (source_name : jerry_value_t)
    : M jerry_value_t :=
  w ← get;
  let source := take source_size source_p in
  let name := string_bytes (w_engine w) source_name in
  emit (ev_parse source name);;
  mret (e_parse (w_engine w) source name).

(** Modelled from the spec: "object-extension-data query". *)
Definition jerry_object_get_native_ptr (v : jerry_value_t) : M (option ptr) :=
  w ← get;
  mret (match v with
        | jerry_object_value r => e_native (w_engine w) !! r
        | _ => None
        end).

(** Modelled from the spec: "object-extension-data attach". *)
Definition jerry_object_set_native_ptr (v : jerry_value_t) (p : ptr) : M unit :=
  match v with
  | jerry_object_value r => modify (with_engine (set_native (<[r := p]>)))
  | _ => mret tt
  end.

(** Modelled from the spec: the storage of the module manager in the
    context's extension data. *)
Definition jerry_context_data : M jerry_port_module_manager_t :=
  w ← get;
  mret (w_manager w).

(** ** The platform *)

(** [jerry_port_log (level, format, argument)]. *)
Definition jerry_port_log (format : string) (argument : list jerry_char_t) : M unit :=
  emit (ev_log format argument).

(** [malloc] of a buffer: [true] when it succeeds. *)
Definition malloc : M bool :=
  λ w, match p_oom (w_platform w) with
       | [] => Ok true w
       | fails :: schedule =>
           Ok (negb fails)
              (with_platform (λ p, {| p_fs := p_fs p; p_realpath := p_realpath p;
                                      p_oom := schedule |}) w)
       end.

(** [malloc (sizeof (jerry_port_module_t))]: an address that is not in use,
    or NULL. *)
Definition malloc_module : M (option ptr) :=
  ok ← malloc;
  if (ok : bool) then w ← get; mret (Some (fresh (dom (w_heap w)))) else mret None.

(** [free (module_p)]. *)
Definition free_module (p : ptr) : M unit :=
  load p;;
  modify (with_heap (delete p)).

(** [memcpy (dest, src, n)]: the [n] bytes read from [src]. *)
Definition memcpy (src : option (list jerry_char_t)) (n : nat) : M (list jerry_char_t) :=
  match src with
  | None => crash
  | Some s => if decide (n ≤ S (length s)) then mret (take n (s ++ [x00])) else crash
  end.

(** [realpath (path_p, NULL)]: a new buffer with the canonical path, or
    NULL. *)
Definition realpath (path : list jerry_char_t) : M (option (list jerry_char_t)) :=
  w ← get;
  mret (p_realpath (w_platform w) (cstr path)).

(** ** Reading a source file *)

(** Determines the size of the given file ([fseek], [ftell]). *)
Definition jerry_port_get_file_size (file_p : file) : nat := length (f_data file_p).

(** Opens file with the given path and reads its source: the buffer, whose
    length is [*out_size_p], or NULL. *)
Definition jerry_port_read_source (file_name_p : list jerry_char_t) : M (option (list byte)) :=
  emit (ev_read_source (cstr file_name_p));;
  w ← get;
  match p_fs (w_platform w) (cstr file_name_p) with
  | None =>
      jerry_port_log "Error: Failed to open file: %s\n" (cstr file_name_p);;
      mret None
  | Some file_p =>
      if f_is_dir file_p then
        jerry_port_log "Error: Failed to open file: %s\n" (cstr file_name_p);;
        mret None
      else if negb (f_can_open file_p) then
        jerry_port_log "Error: Failed to open file: %s\n" (cstr file_name_p);;
        mret None
      else
        let file_size := jerry_port_get_file_size file_p in
        buffer_ok ← malloc;
        if negb buffer_ok then
          jerry_port_log "Error: Failed to allocate memory for file: %s\n" (cstr file_name_p);;
          mret None
        else
          let buffer_p := take (f_fread file_p) (take file_size (f_data file_p)) in
          let bytes_read := length buffer_p in
          if decide (bytes_read ≠ file_size) then
            jerry_port_log "Error: Failed to read file: %s\n" (cstr file_name_p);;
            mret None
          else mret (Some buffer_p)
  end.

(** ** Normalising a path *)

(** Normalize a file path: a newly allocated buffer with the normalized path,
    or NULL. *)
Definition jerry_port_normalize_path (in_path_p : list jerry_char_t) (in_path_length : nat)
    (base_path_p : option (list jerry_char_t)) (base_path_length : nat)
    : M (option (list jerry_char_t)) :=
  path_p ←
    (if decide (0 < base_path_length) then
       ok ← malloc;
       if negb ok then mret None
       else
         base ← memcpy base_path_p base_path_length;
         rest ← memcpy (Some in_path_p) in_path_length;
         mret (Some (base ++ rest))
     else
       ok ← malloc;
       if negb ok then mret None
       else
         rest ← memcpy (Some in_path_p) in_path_length;
         mret (Some rest)) : M (option (list jerry_char_t));
  match path_p with
  | None => mret None
  | Some path_p =>
      norm_p ← realpath path_p;
      match norm_p with
      | Some norm_p => mret (Some norm_p)
      | None => mret (Some path_p)
      end
  end.

(** ** The module manager *)

(** [manager_p->module_head_p = p]. *)
Definition set_head (p : option ptr) : M unit :=
  modify (with_manager {| module_head_p := p |}).

(** [prev_p->next_p = next_p]. *)
Definition set_next (prev_p : ptr) (next : option ptr) : M unit :=
  m ← load prev_p;
  modify (with_heap (<[prev_p := {| next_p := next; path_p := path_p m;
                                    base_path_length := base_path_length m;
                                    realm := realm m; module := module m |}]>)).

(** The loop of [jerry_port_module_free].  The result lists the records the
    loop has visited, in order; it is not part of the C function. *)
Fixpoint jerry_port_module_free_loop (fuel : nat) (realm_filter : jerry_value_t)
    (release_all : bool) (module_p prev_p : option ptr) : M (list ptr) :=
  match fuel with
  | 0 => diverge
  | S fuel =>
      match module_p with
      | None => mret []
      | Some p =>
          m ← load p;
          let next := next_p m in
          if release_all || bool_decide (realm m = realm_filter) then
            jerry_value_free (realm m);;
            jerry_value_free (module m);;
            free_module p;;
            match prev_p with
            | None => set_head next
            | Some q => set_next q next
            end;;
            visited ← jerry_port_module_free_loop fuel realm_filter release_all next prev_p;
            mret (p :: visited)
          else
            visited ← jerry_port_module_free_loop fuel realm_filter release_all next (Some p);
            mret (p :: visited)
      end
  end.

(** No acyclic list in a heap has more records than the heap has cells, so
    this fuel lets a loop over the list run to its end. *)
Definition list_fuel (w : world) : nat := S (size (w_heap w)).

(** Release known modules and list the records visited.  [manager_p] is the
    module manager of the context, the only one there is. *)
Definition jerry_port_module_free_visit (realm_filter : jerry_value_t) : M (list ptr) :=
  manager_p ← jerry_context_data;
  let module_p := module_head_p manager_p in
  let release_all := negb (jerry_value_is_object realm_filter) in
  w ← get;
  jerry_port_module_free_loop (list_fuel w) realm_filter release_all module_p None.

(** Release known modules: if the argument is an object, only those whose
    realm is equal to it. *)
Definition jerry_port_module_free (realm_filter : jerry_value_t) : M unit :=
  jerry_port_module_free_visit realm_filter;;
  mret tt.

(** Initialize the default module manager. *)
Definition jerry_port_module_manager_init : M unit :=
  set_head None.

(** Deinitialize the default module manager. *)
Definition jerry_port_module_manager_deinit : M unit :=
  undef ← jerry_undefined;
  jerry_port_module_free undef;;
  jerry_value_free undef.

(** Release known modules. *)
Definition jerry_port_module_release (realm_filter : jerry_value_t) : M unit :=
  jerry_port_module_free realm_filter.

(** ** The resolver *)

(** The first part of [jerry_port_module_resolve]: the base directory of the
    referrer, the decoded specifier [in_path_p] and the normalized path
    [path_p] (NULL when [jerry_port_normalize_path] fails).  The C code does
    not check the [malloc] of [in_path_p]: when it returns NULL, the store
    [in_path_p[in_path_length] = 0] is a write through NULL. *)
Definition jerry_port_module_resolve_path (specifier referrer : jerry_value_t)
    : M (list jerry_char_t * option (list jerry_char_t)) :=
  module_p ← jerry_object_get_native_ptr referrer;
  '(base_path_p, base_path_length) ←
    (match module_p with
     | Some p => m ← load p; mret (Some (path_p m), base_path_length m)
     | None => mret (None, 0)
     end : M (option (list jerry_char_t) * nat));
  in_path_length ← jerry_string_size specifier;
  in_path_ok ← malloc;
  if negb in_path_ok then crash
  else
    in_path_p ← jerry_string_to_buffer specifier in_path_length;
    path_p ← jerry_port_normalize_path in_path_p in_path_length base_path_p base_path_length;
    mret (in_path_p, path_p).

(** The lookup loop of [jerry_port_module_resolve]: the record found, or
    NULL. *)
Fixpoint jerry_port_module_resolve_lookup (fuel : nat) (module_p : option ptr)
    (realm_v : jerry_value_t) (path : list jerry_char_t) : M (option jerry_port_module_t) :=
  match fuel with
  | 0 => diverge
  | S fuel =>
      match module_p with
      | None => mret None
      | Some p =>
          m ← load p;
          if bool_decide (realm m = realm_v) && bool_decide (strcmp (path_p m) path = 0%Z)
          then mret (Some m)
          else jerry_port_module_resolve_lookup fuel (next_p m) realm_v path
      end
  end.

(** The last part of [jerry_port_module_resolve], after the lookup has found
    no record: read the file, parse it, and on success link a new record in
    at the head of the list. *)
Definition jerry_port_module_resolve_load (in_path_p path_p : list jerry_char_t)
    (realm_v : jerry_value_t) : M jerry_value_t :=
  source_p ← jerry_port_read_source path_p;
  match source_p with
  | None =>
      jerry_value_free realm_v;;
      jerry_throw_sz JERRY_ERROR_SYNTAX "Module file not found"
  | Some source_p =>
      let source_size := length source_p in
      source_name ← jerry_string in_path_p (length in_path_p);
      ret_value ← jerry_parse source_p source_size source_name;
      jerry_value_free source_name;;
      if jerry_value_is_exception ret_value then
        jerry_value_free realm_v;;
        mret ret_value
      else
        module_p ← malloc_module;
        match module_p with
        | None => crash
        | Some p =>
            manager_p ← jerry_context_data;
            module_copy ← jerry_value_copy ret_value;
            modify (with_heap (<[p := {| next_p := module_head_p manager_p;
                                         path_p := path_p;
                                         base_path_length :=
                                           jerry_port_get_directory_end path_p;
                                         realm := realm_v;
                                         module := module_copy |}]>));;
            jerry_object_set_native_ptr ret_value p;;
            set_head (Some p);;
            mret ret_value
        end
  end.

(** Default module resolver: a module object if resolving is successful, an
    error otherwise. *)
Definition jerry_port_module_resolve (specifier referrer : jerry_value_t) : M jerry_value_t :=
  '(in_path_p, path_p) ← jerry_port_module_resolve_path specifier referrer;
  match path_p with
  | None => jerry_throw_sz JERRY_ERROR_COMMON "Out of memory"
  | Some path_p =>
      realm_v ← jerry_current_realm;
      manager_p ← jerry_context_data;
      w ← get;
      found ← jerry_port_module_resolve_lookup (list_fuel w) (module_head_p manager_p)
                realm_v path_p;
      match found with
      | Some m =>
          jerry_value_free realm_v;;
          jerry_value_copy (module m)
      | None => jerry_port_module_resolve_load in_path_p path_p realm_v
      end
  end.

(** ** The cache as a list of records *)

(** What a module record holds, apart from its link. *)
Record module_record := {
  r_path : list jerry_char_t;
  r_base : nat;
  r_realm : jerry_value_t;
  r_module : jerry_value_t
}.

(** The record of a module descriptor. *)
Definition record_of (m : jerry_port_module_t) : module_record :=
  {| r_path := path_p m; r_base := base_path_length m;
     r_realm := realm m; r_module := module m |}.

(** [lseg h p l q]: following [next_p] from [p] in the heap [h] passes the
    records [l], each at its address, and arrives at [q]. *)
Fixpoint lseg (h : gmap ptr jerry_port_module_t) (p : option ptr)
    (l : list (ptr * module_record)) (q : option ptr) : Prop :=
  match l with
  | [] => p = q
  | (a, r) :: l' =>
      p = Some a ∧ ∃ m, h !! a = Some m ∧ record_of m = r ∧ lseg h (next_p m) l' q
  end.

(** The list of the module manager holds exactly the records [l], from the
    head to NULL. *)
Definition cache_is (w : world) (l : list (ptr * module_record)) : Prop :=
  lseg (w_heap w) (module_head_p (w_manager w)) l None.

(** The test of the lookup loop on a record. *)
Definition matches (realm_v : jerry_value_t) (path : list jerry_char_t)
    (e : ptr * module_record) : bool :=
  bool_decide (r_realm e.2 = realm_v) && bool_decide (strcmp (r_path e.2) path = 0%Z).

(** The key of a record: its realm handle and its path as a C string. *)
Definition key (e : ptr * module_record) : jerry_value_t * list jerry_char_t :=
  (r_realm e.2, cstr (r_path e.2)).

(** The records that [jerry_port_module_free] keeps. *)
Definition kept (realm_filter : jerry_value_t) (e : ptr * module_record) : bool :=
  negb (negb (jerry_value_is_object realm_filter) || bool_decide (r_realm e.2 = realm_filter)).

(** The reference counts once the records [l] have been destroyed. *)
Definition drop_ref (v : jerry_value_t) (c : jerry_value_t → nat) : jerry_value_t → nat :=
  <[v := pred (c v)]> c.

Definition release_refs (l : list (ptr * module_record)) (c : jerry_value_t → nat)
    : jerry_value_t → nat :=
  foldl (λ c e, drop_ref (r_module e.2) (drop_ref (r_realm e.2) c)) c l.

(** ** The life of a context *)

(** A step of the life of a context: the engine calls the resolver, the host
    releases the modules of a realm (when [evict] allows it), or the engine,
    the host and the platform do anything that leaves the memory of the
    module manager alone. *)
Inductive port_step (evict : bool) : world → world → Prop :=
| step_resolve w specifier referrer v w' :
    jerry_port_module_resolve specifier referrer w = Ok v w' →
    port_step evict w w'
| step_release w realm_filter w' :
    evict = true →
    jerry_port_module_release realm_filter w = Ok tt w' →
    port_step evict w w'
| step_host w w' :
    w_heap w' = w_heap w →
    w_manager w' = w_manager w →
    port_step evict w w'.

(** The cache states of a context: from the initialisation of the module
    manager, any sequence of steps. *)
Definition reachable (w : world) : Prop :=
  ∃ w00 w0, jerry_port_module_manager_init w00 = Ok tt w0 ∧ rtc (port_step true) w0 w.

(** ** Worlds met in the proofs *)

(** The world once the record [m] at [a] has been destroyed: its two handles
    released and its cell freed. *)
Definition destroy (a : ptr) (m : jerry_port_module_t) (w : world) : world :=
  with_heap (delete a)
    (with_engine (set_refs (λ c, drop_ref (module m) (drop_ref (realm m) c))) w).

(** The list linked around a removed record. *)
Definition relink (prev_p next : option ptr) : M unit :=
  match prev_p with
  | None => set_head next
  | Some q => set_next q next
  end.

(** The worlds [w'] that differ from [w] at most by the schedule of
    [malloc]. *)
Definition only_malloc (w w' : world) : Prop :=
  w_engine w' = w_engine w ∧ w_heap w' = w_heap w ∧ w_manager w' = w_manager w ∧
  w_trace w' = w_trace w ∧ p_fs (w_platform w') = p_fs (w_platform w) ∧
  p_realpath (w_platform w') = p_realpath (w_platform w).

(** The world once [jerry_current_realm] has returned. *)
Definition enter_realm (w : world) : world :=
  with_engine (set_refs (λ c, <[e_realm (w_engine w) := S (c (e_realm (w_engine w)))]> c)) w.

(** The next call of [malloc] succeeds. *)
Definition malloc_ok (w : world) : Prop := head (p_oom (w_platform w)) ≠ Some true.

(** The world once [jerry_string] has made a string of the bytes [buf]. *)
Definition new_string (buf : list jerry_char_t) (w : world) : world :=
  let r := fresh (dom (e_strings (w_engine w))) in
  with_engine (set_refs (λ c, <[jerry_string_value r := S (c (jerry_string_value r))]> c))
    (with_engine (set_strings (<[r := buf]>)) w).

(** ** The invariant of the cache *)

(** The base length of a record is the end of the directory part of its
    path. *)
Definition base_ok (e : ptr * module_record) : Prop :=
  r_base e.2 = jerry_port_get_directory_end (r_path e.2).

(** The cache holds the records [l], no two of them with the same key, each
    with the base length of its path. *)
Definition cache_inv (w : world) (l : list (ptr * module_record)) : Prop :=
  cache_is w l ∧ NoDup (key <$> l) ∧ Forall base_ok l.

(** The file at a path cannot be read: there is none, it is a directory, or
    it cannot be opened. *)
Definition unreadable (w : world) (path : list jerry_char_t) : Prop :=
  match p_fs (w_platform w) (cstr path) with
  | None => True
  | Some f => f_is_dir f = true ∨ f_can_open f = false
  end.

(** ** The resolver seen from outside *)

(** The file at a path is a regular file that can be opened. *)
Definition regular_file (w : world) (path : list jerry_char_t) (f : file) : Prop :=
  p_fs (w_platform w) (cstr path) = Some f ∧ f_is_dir f = false ∧ f_can_open f = true.

(** The bytes [memcpy] takes from the base path. *)
Definition base_prefix (base : option (list jerry_char_t)) (base_len : nat)
    : list jerry_char_t :=
  match base with
  | Some b => take base_len b
  | None => []
  end.

(** The base path can be read up to [base_len]. *)
Definition base_in_bounds (base : option (list jerry_char_t)) (base_len : nat) : Prop :=
  base_len = 0 ∨ ∃ b, base = Some b ∧ base_len ≤ length b.

(** The record that the referrer of a call carries, if any. *)
Definition referrer_record (w : world) (referrer : jerry_value_t) : option ptr :=
  match referrer with
  | jerry_object_value o => e_native (w_engine w) !! o
  | _ => None
  end.

(** The referrer carries no record, or one that is allocated and whose base
    length is within its path. *)
Definition live_referrer (w : world) (referrer : jerry_value_t) : Prop :=
  match referrer_record w referrer with
  | None => True
  | Some a => ∃ m, w_heap w !! a = Some m ∧ base_path_length m ≤ length (path_p m)
  end.

(** The base directory that the resolver takes from the referrer. *)
Definition referrer_base (w : world) (referrer : jerry_value_t) : list jerry_char_t :=
  match referrer_record w referrer with
  | Some a =>
      match w_heap w !! a with
      | Some m => take (base_path_length m) (path_p m)
      | None => []
      end
  | None => []
  end.

(** The native pointers once the record at [a] is attached to [v]. *)
Definition attach (v : jerry_value_t) (a : ptr) (native : gmap N ptr) : gmap N ptr :=
  match v with
  | jerry_object_value o => <[o := a]> native
  | _ => native
  end.

(** The reference counts once the handle [v] has gained a reference. *)
Definition add_ref (v : jerry_value_t) (c : jerry_value_t → nat) : jerry_value_t → nat :=
  <[v := S (c v)]> c.

(** The path that the resolver computes for a specifier and a referrer: the
    base directory of the referrer followed by the specifier, made canonical
    where [realpath] can. *)
Definition resolved_path (w : world) (specifier referrer : jerry_value_t)
    : list jerry_char_t :=
  let raw := referrer_base w referrer ++ string_bytes (w_engine w) specifier in
  default raw (p_realpath (w_platform w) (cstr raw)).

(** None of the next [n] calls of [malloc] fails. *)
Definition mallocs_ok (n : nat) (w : world) : Prop := true ∉ take n (p_oom (w_platform w)).

(** The cache holds no record for a realm and a path. *)
Definition cache_miss (w : world) (l : list (ptr * module_record))
    (path : list jerry_char_t) : Prop :=
  (e_realm (w_engine w), cstr path) ∉ key <$> l.

(** ** Example worlds *)

(** A project directory with a module, a file that does not parse and
    nothing else. *)
Definition example_fs (p : list jerry_char_t) : option file :=
  if decide (p = bytes "/proj/lib.js") then
    Some {| f_is_dir := false; f_can_open := true;
            f_data := bytes "export let x = 1;"; f_fread := 17 |}
  else if decide (p = bytes "/proj/bad.js") then
    Some {| f_is_dir := false; f_can_open := true; f_data := bytes "export let"; f_fread := 10 |}
  else if decide (p = bytes "/proj") then
    Some {| f_is_dir := true; f_can_open := true; f_data := []; f_fread := 0 |}
  else None.

Definition example_realm : jerry_value_t := jerry_object_value 100.
Definition other_realm : jerry_value_t := jerry_object_value 200.
Definition example_module : jerry_value_t := jerry_object_value 50.
Definition example_parse_error : jerry_value_t := jerry_exception_value 77.

Definition example_engine : engine :=
  {| e_strings := <[1%N := bytes "/proj/lib.js"]>
                    (<[2%N := bytes "/proj/bad.js"]>
                       (<[3%N := bytes "nothere.js"]>
                          (<[4%N := bytes "lib.js"]> ∅)));
     e_native := ∅;
     e_errors := ∅;
     e_refs := λ _, 1;
     e_realm := example_realm;
     e_parse := λ source _, if decide (source = bytes "export let")
                            then example_parse_error else example_module |}.

Definition example_platform (oom : list bool) : platform :=
  {| p_fs := example_fs; p_realpath := λ _, None; p_oom := oom |}.

(** A context that has just been created. *)
Definition example_world : world :=
  {| w_engine := example_engine; w_platform := example_platform [];
     w_heap := ∅; w_manager := {| module_head_p := None |}; w_trace := [] |}.

(** The same context, when the next allocation fails. *)
Definition oom_world : world :=
  {| w_engine := example_engine; w_platform := example_platform [true];
     w_heap := ∅; w_manager := {| module_head_p := None |}; w_trace := [] |}.

(** The second allocation fails. *)
Definition oom_world_2 : world :=
  {| w_engine := example_engine; w_platform := example_platform [false; true];
     w_heap := ∅; w_manager := {| module_head_p := None |}; w_trace := [] |}.

(** The world a call leaves. *)
Definition world_after {A} (o : outcome A) : world :=
  match o with Ok _ w => w | _ => example_world end.

(** The context once ["/proj/lib.js"] has been resolved. *)
Definition loaded_world : world :=
  world_after (jerry_port_module_resolve (jerry_string_value 1) jerry_undefined_value
                 example_world).

(** The context once ["/proj/bad.js"] has then failed to parse. *)
Definition busy_world : world :=
  world_after (jerry_port_module_resolve (jerry_string_value 2) jerry_undefined_value
                 loaded_world).

(** A cache of three records, of two realms. *)
Definition example_record (next : option ptr) (name : string) (realm_v : jerry_value_t)
    (m : N) : jerry_port_module_t :=
  {| next_p := next; path_p := bytes name;
     base_path_length := jerry_port_get_directory_end (bytes name);
     realm := realm_v; module := jerry_object_value m |}.

Definition two_realms_world : world :=
  {| w_engine := example_engine; w_platform := example_platform [];
     w_heap := <[3%positive := example_record (Some 2%positive) "/proj/c.js" example_realm 53]>
                 (<[2%positive := example_record (Some 1%positive) "/proj/b.js" other_realm 52]>
                    (<[1%positive := example_record None "/proj/a.js" example_realm 51]> ∅));
     w_manager := {| module_head_p := Some 3%positive |}; w_trace := [] |}.

Definition two_realms_cache : list (ptr * module_record) :=
  [(3%positive, record_of (example_record (Some 2%positive) "/proj/c.js" example_realm 53));
   (2%positive, record_of (example_record (Some 1%positive) "/proj/b.js" other_realm 52));
   (1%positive, record_of (example_record None "/proj/a.js" example_realm 51))].

(** The context of [loaded_world], entered from another realm. *)
Definition guest_world : world :=
  with_engine (λ e, {| e_strings := e_strings e; e_native := e_native e;
                       e_errors := e_errors e; e_refs := e_refs e;
                       e_realm := other_realm; e_parse := e_parse e |}) loaded_world.

(** The cache of [loaded_world]. *)
Definition loaded_cache : list (ptr * module_record) :=
  [(1%positive, {| r_path := bytes "/proj/lib.js"; r_base := 6;
                   r_realm := example_realm; r_module := example_module |})].

(** The module file of the example project. *)
Definition example_file : file :=
  {| f_is_dir := false; f_can_open := true; f_data := bytes "export let x = 1;";
     f_fread := 17 |}.

(** The third allocation fails: the buffer of the source. *)
Definition oom_world_3 : world :=
  {| w_engine := example_engine; w_platform := example_platform [false; false; true];
     w_heap := ∅; w_manager := {| module_head_p := None |}; w_trace := [] |}.

(** The fourth allocation fails: the module record. *)
Definition oom_world_4 : world :=
  {| w_engine := example_engine; w_platform := example_platform [false; false; false; true];
     w_heap := ∅; w_manager := {| module_head_p := None |}; w_trace := [] |}.

(** ** C strings *)

Lemma strlen_le s : strlen s ≤ length s.
Proof.
  induction s as [|c s IH]; simpl; [lia|].
  case_bool_decide; lia.
Qed.

Lemma cstr_nil : cstr [] = [].
Proof. reflexivity. Qed.

Lemma cstr_cons c s :
  cstr (c :: s) = if bool_decide (c = x00) then [] else c :: cstr s.
Proof. unfold cstr. simpl. case_bool_decide; reflexivity. Qed.

Lemma cstr_no_nul s : x00 ∉ cstr s.
Proof.
  induction s as [|c s IH]; [rewrite cstr_nil; apply not_elem_of_nil|].
  rewrite cstr_cons. case_bool_decide; [apply not_elem_of_nil|].
  rewrite not_elem_of_cons. split; [congruence | assumption].
Qed.

Lemma length_cstr s : length (cstr s) = strlen s.
Proof. unfold cstr. rewrite length_take. pose proof (strlen_le s). lia. Qed.

Lemma strlen_no_nul s : x00 ∉ s → strlen s = length s.
Proof.
  induction s as [|c s IH]; [reflexivity|].
  rewrite not_elem_of_cons. intros [Hc Hs]. simpl.
  rewrite bool_decide_false by congruence. rewrite IH; auto.
Qed.

Lemma cstr_no_nul_id s : x00 ∉ s → cstr s = s.
Proof.
  intros H. unfold cstr. rewrite strlen_no_nul by assumption. apply firstn_all.
Qed.

Lemma byte_to_N_inj x y : Byte.to_N x = Byte.to_N y → x = y.
Proof.
  intros H. pose proof (Byte.of_to_N x) as Hx. pose proof (Byte.of_to_N y) as Hy.
  rewrite H in Hx. congruence.
Qed.

Lemma byte_to_N_zero x : Byte.to_N x = 0%N → x = x00.
Proof. intros H. apply byte_to_N_inj. rewrite H. reflexivity. Qed.

(** [strcmp] answers 0 exactly on buffers that hold the same C string. *)
Lemma strcmp_eq a b : strcmp a b = 0%Z ↔ cstr a = cstr b.
Proof.
  revert b. induction a as [|x a IH]; intros [|y b]; simpl.
  - tauto.
  - rewrite cstr_nil, cstr_cons. case_bool_decide as Hy.
    + subst y. simpl. tauto.
    + split; [|discriminate]. intros H. exfalso. apply Hy, byte_to_N_zero. lia.
  - rewrite cstr_nil, cstr_cons. case_bool_decide as Hx.
    + subst x. simpl. tauto.
    + split; [|discriminate]. intros H. exfalso. apply Hx, byte_to_N_zero. lia.
  - rewrite !cstr_cons. case_bool_decide as Hxy.
    + subst y. case_bool_decide; [tauto|]. rewrite IH. split; congruence.
    + split.
      * intros H. exfalso. apply Hxy, byte_to_N_inj. lia.
      * repeat case_bool_decide; congruence.
Qed.

Lemma char_at_lookup s i c : c ≠ x00 → char_at s i = c ↔ s !! i = Some c.
Proof.
  intros Hc. unfold char_at. revert i. induction s as [|d s IH]; intros [|i]; simpl.
  - split; [congruence | discriminate].
  - split; [congruence | discriminate].
  - split; [intros ->; reflexivity | intros [= ->]; reflexivity].
  - apply IH.
Qed.

Lemma cstr_lookup s i : i < strlen s → cstr s !! i = s !! i.
Proof. intros H. unfold cstr. apply lookup_take_lt. assumption. Qed.

(** ** The end of the directory part *)

Lemma directory_end_loop_le path e : jerry_port_get_directory_end_loop path e ≤ e.
Proof. induction e as [|e IH]; simpl; [lia|]. case_bool_decide; lia. Qed.

Lemma directory_end_loop_zero path e :
  jerry_port_get_directory_end_loop path e = 0 → ∀ j, j < e → char_at path j ≠ SEP.
Proof.
  induction e as [|e IH]; simpl; [lia|].
  case_bool_decide as Hc; [discriminate|].
  intros H j Hj. destruct (decide (j = e)) as [->|]; [assumption|].
  apply IH; [assumption | lia].
Qed.

Lemma directory_end_loop_succ path e i :
  jerry_port_get_directory_end_loop path e = S i →
  i < e ∧ char_at path i = SEP ∧ ∀ j, i < j < e → char_at path j ≠ SEP.
Proof.
  induction e as [|e IH]; simpl; [discriminate|].
  case_bool_decide as Hc.
  - intros [= <-]. repeat split; [lia | assumption | lia].
  - intros H. destruct (IH H) as (Hi & Hs & Hlast). repeat split; [lia | assumption |].
    intros j Hj. destruct (decide (j = e)) as [->|]; [assumption|].
    apply Hlast. lia.
Qed.

Lemma directory_end_loop_last path e i :
  i < e → char_at path i = SEP → (∀ j, i < j < e → char_at path j ≠ SEP) →
  jerry_port_get_directory_end_loop path e = S i.
Proof.
  intros Hi Hs Hlast.
  destruct (jerry_port_get_directory_end_loop path e) as [|k] eqn:E.
  - exfalso. exact (directory_end_loop_zero _ _ E i Hi Hs).
  - destruct (directory_end_loop_succ _ _ _ E) as (Hk & Hks & Hklast).
    destruct (lt_eq_lt_dec i k) as [[Hlt| ->]|Hgt]; [|reflexivity|].
    + exfalso. apply (Hlast k); [lia | assumption].
    + exfalso. apply (Hklast i); [lia | assumption].
Qed.

(** ** Lists in the heap *)

Section heap_lists.
Implicit Types (h : gmap ptr jerry_port_module_t) (p q : option ptr).
Implicit Types (l : list (ptr * module_record)) (a : ptr).

Lemma lseg_app h p l1 l2 q :
  lseg h p (l1 ++ l2) q ↔ ∃ r, lseg h p l1 r ∧ lseg h r l2 q.
Proof.
  revert p. induction l1 as [|[a r] l1 IH]; intros p; simpl.
  - split.
    + intros H. exists p. auto.
    + intros (r & -> & H). assumption.
  - split.
    + intros (-> & m & Hm & Hr & H). apply IH in H as (r' & H1 & H2).
      exists r'. split; [|assumption]. split; [reflexivity|]. exists m. auto.
    + intros (r' & (-> & m & Hm & Hr & H1) & H2). split; [reflexivity|].
      exists m. repeat split; try assumption. apply IH. exists r'. auto.
Qed.

Lemma lseg_insert_frame h p l q a m :
  a ∉ l.*1 → lseg h p l q → lseg (<[a := m]> h) p l q.
Proof.
  revert p. induction l as [|[b r] l IH]; intros p; simpl; [auto|].
  rewrite not_elem_of_cons. intros [Hab Hal] (-> & m' & Hm' & Hr & H).
  split; [reflexivity|]. exists m'. rewrite lookup_insert_ne by assumption. auto.
Qed.

Lemma lseg_delete_frame h p l q a :
  a ∉ l.*1 → lseg h p l q → lseg (delete a h) p l q.
Proof.
  revert p. induction l as [|[b r] l IH]; intros p; simpl; [auto|].
  rewrite not_elem_of_cons. intros [Hab Hal] (-> & m' & Hm' & Hr & H).
  split; [reflexivity|]. exists m'. rewrite lookup_delete_ne by assumption. auto.
Qed.

(** The list that starts at a pointer and ends at NULL is unique. *)
Lemma lseg_functional h p l1 l2 :
  lseg h p l1 None → lseg h p l2 None → l1 = l2.
Proof.
  revert p l2. induction l1 as [|[a r] l1 IH]; intros p [|[b s] l2]; simpl.
  - reflexivity.
  - intros -> [? _]. discriminate.
  - intros [-> _] ?. discriminate.
  - intros (-> & m & Hm & Hr & H1) ([= <-] & m' & Hm' & Hs & H2).
    rewrite Hm in Hm'. injection Hm' as <-. subst r s.
    f_equal. exact (IH _ _ H1 H2).
Qed.

(** A list that ends at NULL passes no address twice. *)
Lemma lseg_NoDup h p l : lseg h p l None → NoDup l.*1.
Proof.
  revert p. induction l as [|[a r] l IH]; intros p; simpl; [constructor|].
  intros (-> & m & Hm & Hr & H). constructor; [|exact (IH _ H)].
  intros Hin. apply list_elem_of_fmap in Hin as ([b s] & Hab & Hin). simpl in Hab. subst b.
  apply list_elem_of_split in Hin as (l1 & l2 & ->).
  pose proof H as H'. apply lseg_app in H' as (r' & H1 & H2).
  pose proof H2 as H2'. simpl in H2'. destruct H2' as (-> & m' & Hm' & Hs & H3).
  rewrite Hm in Hm'. injection Hm' as <-.
  pose proof (lseg_functional _ _ _ _ H H3) as Heq.
  apply (f_equal length) in Heq. rewrite length_app in Heq. simpl in Heq. lia.
Qed.

Lemma lseg_allocated h p l q a : lseg h p l q → a ∈ l.*1 → a ∈ dom h.
Proof.
  revert p. induction l as [|[b r] l IH]; intros p; simpl.
  - intros _ H. apply elem_of_nil in H. contradiction.
  - intros (-> & m & Hm & Hr & H). rewrite elem_of_cons. intros [->|Hin].
    + apply elem_of_dom. eauto.
    + exact (IH _ H Hin).
Qed.

(** A list that ends at NULL has no more records than the heap has cells. *)
Lemma lseg_length h p l : lseg h p l None → length l ≤ size h.
Proof.
  intros H. pose proof (lseg_NoDup _ _ _ H) as Hnd.
  rewrite <- (length_fmap fst l).
  rewrite <- (size_list_to_set (C := gset ptr) _ Hnd).
  rewrite <- (size_dom (D := gset ptr) h).
  apply subseteq_size. intros a Ha. apply elem_of_list_to_set in Ha.
  exact (lseg_allocated _ _ _ _ _ H Ha).
Qed.

Lemma lseg_lookup h p l q a r :
  lseg h p l q → (a, r) ∈ l → ∃ m, h !! a = Some m ∧ record_of m = r.
Proof.
  revert p. induction l as [|[b s] l IH]; intros p; simpl.
  - intros _ H. apply elem_of_nil in H. contradiction.
  - intros (-> & m & Hm & Hr & H). rewrite elem_of_cons. intros [[= -> ->]|Hin].
    + eauto.
    + exact (IH _ H Hin).
Qed.

Lemma lseg_head h p l : lseg h p l None → p = head l.*1.
Proof. destruct l as [|[a r] l]; simpl; [auto | by intros [-> _]]. Qed.

End heap_lists.

(** ** The monad *)

Lemma bind_Ok {A B} (m : M A) (k : A → M B) w a w' :
  m w = Ok a w' → (m ≫= k) w = k a w'.
Proof. intros H. unfold mbind, M_bind. rewrite H. reflexivity. Qed.

(** One step of a computation: the first action is known to return. *)
Tactic Notation "bind_step" uconstr(H) := rewrite (bind_Ok _ _ _ _ _ H); cbn beta.

Lemma bind_Crash {A B} (m : M A) (k : A → M B) w : m w = Crash → (m ≫= k) w = Crash.
Proof. intros H. unfold mbind, M_bind. rewrite H. reflexivity. Qed.

Lemma load_Ok p m w : w_heap w !! p = Some m → load p w = Ok m w.
Proof. intros H. unfold load. rewrite H. reflexivity. Qed.

Lemma world_eq w w' :
  w_engine w' = w_engine w → w_platform w' = w_platform w → w_heap w' = w_heap w →
  w_manager w' = w_manager w → w_trace w' = w_trace w → w' = w.
Proof. destruct w, w'. simpl. by intros -> -> -> -> ->. Qed.

(** ** The lookup loop *)

(** On a list that ends at NULL the lookup loop returns the first record that
    matches, or NULL. *)
Lemma lookup_loop_spec realm_v path w l : ∀ fuel p,
  lseg (w_heap w) p l None → length l < fuel →
  ∃ res, jerry_port_module_resolve_lookup fuel p realm_v path w = Ok res w ∧
         record_of <$> res = snd <$> find (matches realm_v path) l.
Proof.
  induction l as [|[a r] l IH]; intros fuel p Hl Hfuel;
    (destruct fuel as [|fuel]; [simpl in Hfuel; lia|]).
  - simpl in Hl. subst p. exists None. split; reflexivity.
  - destruct Hl as (-> & m & Hm & Hr & Hl). simpl in Hfuel.
    cbn [jerry_port_module_resolve_lookup].
    rewrite (bind_Ok _ _ _ _ _ (load_Ok _ _ _ Hm)).
    cbn [find]. unfold matches at 1. simpl. rewrite <- Hr. simpl.
    destruct (bool_decide (realm m = realm_v) && bool_decide (strcmp (path_p m) path = 0%Z)).
    + exists (Some m). split; reflexivity.
    + apply IH; [assumption | lia].
Qed.

(** ** The eviction loop *)

Lemma set_refs_set_refs f g e : set_refs f (set_refs g e) = set_refs (λ c, f (g c)) e.
Proof. reflexivity. Qed.

Lemma set_refs_id e : set_refs (λ c, c) e = e.
Proof. destruct e; reflexivity. Qed.

Lemma release_refs_cons e l c :
  release_refs (e :: l) c = release_refs l (drop_ref (r_module e.2) (drop_ref (r_realm e.2) c)).
Proof. reflexivity. Qed.

Lemma last_fst_snoc (ks : list (ptr * module_record)) a r :
  list.last (ks ++ [(a, r)]).*1 = Some a.
Proof. rewrite fmap_app. simpl. apply last_snoc. Qed.

Lemma free_loop_remove fuel realm_filter release_all a prev_p m w w' :
  w_heap w !! a = Some m →
  release_all || bool_decide (realm m = realm_filter) = true →
  relink prev_p (next_p m) (destroy a m w) = Ok tt w' →
  jerry_port_module_free_loop (S fuel) realm_filter release_all (Some a) prev_p w =
  (visited ← jerry_port_module_free_loop fuel realm_filter release_all (next_p m) prev_p;
   mret (a :: visited)) w'.
Proof.
  intros Hm Hrm Hlink. cbn [jerry_port_module_free_loop].
  rewrite (bind_Ok _ _ _ _ _ (load_Ok _ _ _ Hm)). rewrite Hrm.
  unfold jerry_value_free, free_module, modify, load at 1, mbind, M_bind.
  cbn [w_heap with_engine]. rewrite Hm.
  exact (f_equal (λ o, match o with
                       | Ok _ w0 =>
                           (visited ← jerry_port_module_free_loop fuel realm_filter
                                        release_all (next_p m) prev_p;
                            mret (a :: visited)) w0
                       | Crash => Crash
                       | Diverge => Diverge
                       end) Hlink).
Qed.

Lemma free_loop_keep fuel realm_filter release_all a prev_p m w :
  w_heap w !! a = Some m →
  release_all || bool_decide (realm m = realm_filter) = false →
  jerry_port_module_free_loop (S fuel) realm_filter release_all (Some a) prev_p w =
  (visited ← jerry_port_module_free_loop fuel realm_filter release_all (next_p m) (Some a);
   mret (a :: visited)) w.
Proof.
  intros Hm Hrm. cbn [jerry_port_module_free_loop].
  rewrite (bind_Ok _ _ _ _ _ (load_Ok _ _ _ Hm)). rewrite Hrm. reflexivity.
Qed.

Lemma lseg_ext h h' p l q :
  (∀ b, b ∈ l.*1 → h' !! b = h !! b) → lseg h p l q → lseg h' p l q.
Proof.
  revert p. induction l as [|[b r] l IH]; intros p Hext; simpl; [auto|].
  intros (-> & m & Hm & Hr & H). split; [reflexivity|]. exists m.
  split; [rewrite Hext; [assumption | left]|]. split; [assumption|].
  apply IH; [|assumption]. intros c Hc. apply Hext. by right.
Qed.

(** Linking the list around the record at [a], which follows the records
    [ks]. *)
Lemma relink_spec ks a m w :
  lseg (w_heap w) (module_head_p (w_manager w)) ks (Some a) →
  NoDup ks.*1 → a ∉ ks.*1 → w_heap w !! a = Some m →
  ∃ w1, relink (list.last ks.*1) (next_p m) (destroy a m w) = Ok tt w1 ∧
    lseg (w_heap w1) (module_head_p (w_manager w1)) ks (next_p m) ∧
    (∀ b, b ∉ ks.*1 → w_heap w1 !! b = delete a (w_heap w) !! b) ∧
    w_engine w1 = w_engine (destroy a m w) ∧
    w_platform w1 = w_platform w ∧ w_trace w1 = w_trace w.
Proof.
  intros Hks Hnd Hak Hm.
  destruct (list.last ks.*1) as [q|] eqn:Hlast.
  - apply last_Some in Hlast as (ps & Hps).
    apply fmap_app_inv in Hps as (ks0 & k1 & Hps0 & Hk1 & ->).
    destruct k1 as [|[q' rq] [|? ?]]; try discriminate.
    simpl in Hk1. injection Hk1 as Heq. subst q'.
    apply lseg_app in Hks as (r' & Hks0 & -> & mq & Hq & Hrq & Hnext). simpl in Hnext.
    rewrite fmap_app in Hnd, Hak. simpl in Hnd, Hak.
    apply list.NoDup_app in Hnd as (Hnd0 & Hdisj & _).
    assert (Hq0 : q ∉ ks0.*1). { intros Hin. apply (Hdisj q Hin). left. }
    assert (Hqa : q ≠ a). { intros ->. apply Hak. apply elem_of_app. right. left. }
    assert (Ha0 : a ∉ ks0.*1). { intros Hin. apply Hak. apply elem_of_app. by left. }
    assert (Hq' : w_heap (destroy a m w) !! q = Some mq).
    { simpl. rewrite lookup_delete_ne by congruence. assumption. }
    eexists. split.
    { unfold relink, set_next. rewrite (bind_Ok _ _ _ _ _ (load_Ok _ _ _ Hq')). reflexivity. }
    simpl. split; [|split; [|split; [|split]]]; try reflexivity.
    + apply lseg_app. exists (Some q). split.
      * apply lseg_insert_frame; [assumption|]. apply lseg_delete_frame; assumption.
      * simpl. split; [reflexivity|]. eexists. rewrite lookup_insert_eq.
        split; [reflexivity|]. split; [|reflexivity]. subst rq. reflexivity.
    + intros b Hb. rewrite fmap_app in Hb. apply not_elem_of_app in Hb as [_ Hb].
      apply not_elem_of_cons in Hb as [Hb _]. by rewrite lookup_insert_ne.
  - apply last_None in Hlast. apply fmap_nil_inv in Hlast. subst ks.
    simpl in Hks. eexists. split; [reflexivity|]. simpl.
    split; [reflexivity|]. split; [reflexivity|]. split; [reflexivity|]. split; reflexivity.
Qed.

(** The loop of [jerry_port_module_free], entered with the records [ks] kept
    so far and the records [rest] to visit: it visits [rest], keeps the
    records that [kept] keeps, and frees the others. *)
Lemma free_loop_spec realm_filter rest : ∀ ks fuel w prev_p module_p,
  lseg (w_heap w) (module_head_p (w_manager w)) ks module_p →
  lseg (w_heap w) module_p rest None →
  prev_p = list.last ks.*1 →
  length rest < fuel →
  ∃ w', jerry_port_module_free_loop fuel realm_filter
          (negb (jerry_value_is_object realm_filter)) module_p prev_p w = Ok rest.*1 w' ∧
    lseg (w_heap w') (module_head_p (w_manager w'))
      (ks ++ List.filter (kept realm_filter) rest) None ∧
    (∀ a, a ∉ (ks ++ rest).*1 → w_heap w' !! a = w_heap w !! a) ∧
    (∀ e, e ∈ rest → kept realm_filter e = false → w_heap w' !! e.1 = None) ∧
    w_engine w' =
      set_refs (release_refs (List.filter (λ e, negb (kept realm_filter e)) rest)) (w_engine w) ∧
    w_platform w' = w_platform w ∧ w_trace w' = w_trace w.
Proof.
  induction rest as [|[a r] rest IH]; intros ks fuel w prev_p module_p Hks Hrest Hprev Hfuel;
    (destruct fuel as [|fuel]; [simpl in Hfuel; lia|]).
  - simpl in Hrest. subst module_p. exists w. simpl. rewrite app_nil_r.
    split; [reflexivity|]. split; [assumption|]. split; [reflexivity|].
    split; [intros e He; by apply elem_of_nil in He|].
    split; [by destruct (w_engine w)|]. split; reflexivity.
  - assert (Hall : lseg (w_heap w) (module_head_p (w_manager w)) (ks ++ (a, r) :: rest) None).
    { apply lseg_app. eauto. }
    apply lseg_NoDup in Hall as Hnd.
    rewrite fmap_app, fmap_cons in Hnd. simpl in Hnd.
    apply list.NoDup_app in Hnd as (Hndk & Hdisj & Hndr).
    apply list.NoDup_cons in Hndr as (Har & Hndr).
    assert (Hak : a ∉ ks.*1).
    { intros Hin. apply (Hdisj a Hin). left. }
    destruct Hrest as (-> & m & Hm & Hr & Hrest). simpl in Hfuel. subst r.
    assert (Hk : kept realm_filter (a, record_of m) =
                 negb (negb (jerry_value_is_object realm_filter)
                       || bool_decide (realm m = realm_filter))) by reflexivity.
    cbn [List.filter]. rewrite !Hk.
    destruct (negb (jerry_value_is_object realm_filter)
              || bool_decide (realm m = realm_filter)) eqn:Hrm; cbn [negb].
    + (* the record is destroyed and the list is linked around it *)
      destruct (relink_spec ks a m w Hks Hndk Hak Hm)
        as (w1 & Hlink & Hks1 & Hframe1 & Heng1 & Hplat1 & Htr1).
      rewrite <- Hprev in Hlink.
      rewrite (free_loop_remove _ _ _ _ _ _ _ _ Hm Hrm Hlink).
      destruct (IH ks fuel w1 prev_p (next_p m))
        as (w' & Hloop & Hlist & Hframe & Hgone & Heng & Hplat & Htr).
      { assumption. }
      { apply (lseg_ext (w_heap w)); [|assumption]. intros b Hb.
        rewrite Hframe1; [apply lookup_delete_ne; congruence|].
        intros Hin. exact (Hdisj b Hin (list_elem_of_further _ _ _ Hb)). }
      { assumption. }
      { lia. }
      exists w'. rewrite (bind_Ok _ _ _ _ _ Hloop).
      split; [reflexivity|]. split; [assumption|].
      assert (Ha' : w_heap w' !! a = None).
      { rewrite Hframe.
        - rewrite Hframe1 by assumption. apply lookup_delete_eq.
        - rewrite fmap_app. apply not_elem_of_app. auto. }
      split; [|split; [|split; [|split]]].
      * intros b Hb. rewrite fmap_app, fmap_cons in Hb.
        apply not_elem_of_app in Hb as [Hbk Hb]. apply not_elem_of_cons in Hb as [Hba Hbr].
        rewrite Hframe by (rewrite fmap_app; apply not_elem_of_app; auto).
        rewrite Hframe1 by assumption. by apply lookup_delete_ne.
      * intros e He Hkept. apply elem_of_cons in He as [->|He]; [exact Ha'|].
        by apply Hgone.
      * rewrite Heng, Heng1. reflexivity.
      * congruence.
      * congruence.
    + (* the record stays and becomes the previous one *)
      rewrite (free_loop_keep _ _ _ _ _ _ _ Hm Hrm).
      destruct (IH (ks ++ [(a, record_of m)]) fuel w (Some a) (next_p m))
        as (w' & Hloop & Hlist & Hframe & Hgone & Heng & Hplat & Htr).
      { apply lseg_app. exists (Some a). split; [assumption|].
        simpl. split; [reflexivity|]. exists m. auto. }
      { assumption. }
      { symmetry. apply last_fst_snoc. }
      { lia. }
      exists w'. rewrite (bind_Ok _ _ _ _ _ Hloop).
      rewrite <- !app_assoc in Hlist, Hframe. simpl in Hlist, Hframe.
      split; [reflexivity|]. split; [assumption|]. split; [assumption|].
      split; [|auto].
      intros e He Hkept. apply elem_of_cons in He as [->|He].
      * rewrite Hk in Hkept. discriminate.
      * by apply Hgone.
Qed.

(** ** Path construction leaves the memory of the port alone *)

Lemma only_malloc_refl w : only_malloc w w.
Proof. by repeat split. Qed.

Lemma only_malloc_trans w1 w2 w3 : only_malloc w1 w2 → only_malloc w2 w3 → only_malloc w1 w3.
Proof.
  intros (?&?&?&?&?&?) (?&?&?&?&?&?). repeat split; congruence.
Qed.

Lemma bind_inv {A B} (m : M A) (k : A → M B) w b w' :
  (m ≫= k) w = Ok b w' → ∃ a w1, m w = Ok a w1 ∧ k a w1 = Ok b w'.
Proof.
  unfold mbind, M_bind. destruct (m w) as [a w1| |]; [eauto | discriminate | discriminate].
Qed.

Lemma mret_inv {A} (a b : A) w w' : (mret a : M A) w = Ok b w' → a = b ∧ w = w'.
Proof. intros [= -> ->]. auto. Qed.

Lemma malloc_frame w b w' : malloc w = Ok b w' → only_malloc w w'.
Proof.
  unfold malloc. intros H. destruct (p_oom (w_platform w)); simplify_eq; by repeat split.
Qed.

Lemma malloc_fails w :
  head (p_oom (w_platform w)) = Some true → ∃ w', malloc w = Ok false w'.
Proof.
  unfold malloc. destruct (p_oom (w_platform w)) as [|[] o]; try discriminate. eauto.
Qed.

Lemma memcpy_inv src n w x w' :
  memcpy src n w = Ok x w' →
  w' = w ∧ ∃ s, src = Some s ∧ n ≤ S (length s) ∧ x = take n (s ++ [x00]).
Proof.
  unfold memcpy. destruct src as [s|]; [|discriminate].
  case_decide; [|discriminate]. intros [= <- <-]. eauto.
Qed.

Lemma realpath_eq path w : realpath path w = Ok (p_realpath (w_platform w) (cstr path)) w.
Proof. reflexivity. Qed.

Lemma normalize_path_frame in_path n base bn w x w' :
  jerry_port_normalize_path in_path n base bn w = Ok x w' → only_malloc w w'.
Proof.
  unfold jerry_port_normalize_path. intros H.
  apply bind_inv in H as (path & w1 & H1 & H).
  assert (Hw1 : only_malloc w w1).
  { destruct (decide (0 < bn)).
    - apply bind_inv in H1 as (ok & w2 & Hm & H1). apply malloc_frame in Hm.
      destruct ok; cbn [negb] in H1.
      + apply bind_inv in H1 as (b & w3 & Hb & H1). apply memcpy_inv in Hb as (-> & _).
        apply bind_inv in H1 as (c & w4 & Hc & H1). apply memcpy_inv in Hc as (-> & _).
        apply mret_inv in H1 as (_ & <-). assumption.
      + apply mret_inv in H1 as (_ & <-). assumption.
    - apply bind_inv in H1 as (ok & w2 & Hm & H1). apply malloc_frame in Hm.
      destruct ok; cbn [negb] in H1.
      + apply bind_inv in H1 as (c & w4 & Hc & H1). apply memcpy_inv in Hc as (-> & _).
        apply mret_inv in H1 as (_ & <-). assumption.
      + apply mret_inv in H1 as (_ & <-). assumption. }
  destruct path as [path|].
  - rewrite (bind_Ok _ _ _ _ _ (realpath_eq _ _)) in H.
    destruct (p_realpath _ _); apply mret_inv in H as (_ & <-); assumption.
  - apply mret_inv in H as (_ & <-). assumption.
Qed.

Lemma load_inv p w m w' : load p w = Ok m w' → w' = w ∧ w_heap w !! p = Some m.
Proof. unfold load. destruct (w_heap w !! p); [|discriminate]. intros [= <- <-]. auto. Qed.

Lemma resolve_path_frame s r w x w' :
  jerry_port_module_resolve_path s r w = Ok x w' → only_malloc w w'.
Proof.
  unfold jerry_port_module_resolve_path. intros H.
  apply bind_inv in H as (mp & w1 & H1 & H). injection H1 as _ <-.
  apply bind_inv in H as ([base bn] & w1 & H1 & H).
  assert (w1 = w) as ->.
  { destruct mp.
    - apply bind_inv in H1 as (m & w2 & Hl & H1). apply load_inv in Hl as (-> & _).
      by apply mret_inv in H1 as (_ & <-).
    - by apply mret_inv in H1 as (_ & <-). }
  apply bind_inv in H as (len & w1 & H2 & H). injection H2 as _ <-.
  apply bind_inv in H as (ok & w1 & Hm & H). apply malloc_frame in Hm.
  destruct ok; [|discriminate]. cbn [negb] in H.
  apply bind_inv in H as (inp & w2 & H2 & H). injection H2 as _ <-.
  apply bind_inv in H as (path & w2 & Hn & H). apply normalize_path_frame in Hn.
  apply mret_inv in H as (_ & <-). by apply (only_malloc_trans _ w1).
Qed.

Lemma jerry_current_realm_eq w :
  jerry_current_realm w = Ok (e_realm (w_engine w)) (enter_realm w).
Proof. reflexivity. Qed.

Lemma jerry_context_data_eq w : jerry_context_data w = Ok (w_manager w) w.
Proof. reflexivity. Qed.

Lemma get_eq w : get w = Ok w w.
Proof. reflexivity. Qed.

Lemma jerry_object_get_native_ptr_eq v w :
  jerry_object_get_native_ptr v w =
  Ok (match v with
      | jerry_object_value r => e_native (w_engine w) !! r
      | _ => None
      end) w.
Proof. reflexivity. Qed.

Lemma jerry_string_size_eq v w :
  jerry_string_size v w = Ok (length (string_bytes (w_engine w) v)) w.
Proof. reflexivity. Qed.

Lemma jerry_string_to_buffer_eq v n w :
  jerry_string_to_buffer v n w = Ok (take n (string_bytes (w_engine w) v)) w.
Proof. reflexivity. Qed.

Lemma resolve_after_path s r w in_path path w1 l :
  jerry_port_module_resolve_path s r w = Ok (in_path, Some path) w1 →
  cache_is w l →
  jerry_port_module_resolve s r w =
    match find (matches (e_realm (w_engine w)) path) l with
    | Some e =>
        (jerry_value_free (e_realm (w_engine w));; jerry_value_copy (r_module e.2))
          (enter_realm w1)
    | None =>
        jerry_port_module_resolve_load in_path path (e_realm (w_engine w)) (enter_realm w1)
    end.
Proof.
  intros Hpath Hl. pose proof (resolve_path_frame _ _ _ _ _ Hpath) as (He & Hh & Hm & _).
  unfold jerry_port_module_resolve.
  rewrite (bind_Ok _ _ _ _ _ Hpath). cbn beta iota.
  bind_step (jerry_current_realm_eq w1).
  bind_step (jerry_context_data_eq _).
  bind_step (get_eq _).
  rewrite He.
  destruct (lookup_loop_spec (e_realm (w_engine w)) path (enter_realm w1) l
              (list_fuel (enter_realm w1)) (module_head_p (w_manager (enter_realm w1))))
    as (res & Hres & Hfind).
  { simpl. rewrite Hh, Hm. exact Hl. }
  { unfold list_fuel. simpl. rewrite Hh. apply Nat.lt_succ_r. exact (lseg_length _ _ _ Hl). }
  rewrite (bind_Ok _ _ _ _ _ Hres).
  destruct res as [m|]; destruct (find _ l) as [e|]; try discriminate.
  - simpl in Hfind. injection Hfind as <-. reflexivity.
  - reflexivity.
Qed.

(** ** Reading, parsing and linking in *)

Lemma malloc_ok_eq w : malloc_ok w → ∃ w', malloc w = Ok true w' ∧ only_malloc w w' ∧
  p_oom (w_platform w') = tail (p_oom (w_platform w)).
Proof.
  unfold malloc_ok, malloc. destruct (p_oom (w_platform w)) as [|[] o] eqn:E; simpl; intros H.
  - exists w. rewrite E. split; [reflexivity|]. split; [apply only_malloc_refl | reflexivity].
  - congruence.
  - eexists. split; [reflexivity|]. split; [by repeat split | reflexivity].
Qed.

Lemma read_source_spec path w :
  ∃ res w', jerry_port_read_source path w = Ok res w' ∧
    w_engine w' = w_engine w ∧ w_heap w' = w_heap w ∧ w_manager w' = w_manager w ∧
    (∃ t, w_trace w' = w_trace w ++ ev_read_source (cstr path) :: t) ∧
    (match p_fs (w_platform w) (cstr path) with
     | None => res = None
     | Some f =>
         if f_is_dir f || negb (f_can_open f) then res = None
         else malloc_ok w → length (f_data f) ≤ f_fread f →
              res = Some (f_data f) ∧ p_oom (w_platform w') = tail (p_oom (w_platform w))
     end).
Proof.
  unfold jerry_port_read_source.
  unfold emit at 1. unfold modify at 1. unfold mbind at 1. unfold M_bind at 1. cbn beta iota.
  bind_step (get_eq _).
  cbn [w_platform with_trace].
  destruct (p_fs (w_platform w) (cstr path)) as [f|].
  - destruct (f_is_dir f); [|destruct (f_can_open f)]; cbn [orb negb].
    + eexists _, _. split; [reflexivity|]. cbn. repeat split. eexists. rewrite <- app_assoc. reflexivity.
    + unfold mbind at 1. unfold M_bind at 1.
      unfold malloc_ok, malloc. cbn [w_platform with_trace].
      destruct (p_oom (w_platform w)) as [|[] o] eqn:E; cbn beta iota; cbn [negb head tail].
      * unfold jerry_port_get_file_size. rewrite firstn_all.
        case_decide as Hlen; (eexists _, _; split; [reflexivity|]; cbn; rewrite ?E;
          split; [reflexivity|]; split; [reflexivity|]; split; [reflexivity|]; split;
          [eexists; rewrite <- ?app_assoc; reflexivity|]); intros _ Hfread.
        -- rewrite length_take in Hlen. lia.
        -- rewrite take_ge by lia. auto.
      * eexists _, _. split; [reflexivity|]. cbn.
        split; [reflexivity|]. split; [reflexivity|]. split; [reflexivity|].
        split; [eexists; rewrite <- app_assoc; reflexivity|].
        intros Hok. congruence.
      * unfold jerry_port_get_file_size. rewrite firstn_all.
        case_decide as Hlen; (eexists _, _; split; [reflexivity|]; cbn; rewrite ?E;
          split; [reflexivity|]; split; [reflexivity|]; split; [reflexivity|]; split;
          [eexists; rewrite <- ?app_assoc; reflexivity|]); intros _ Hfread.
        -- rewrite length_take in Hlen. lia.
        -- rewrite take_ge by lia. auto.
    + eexists _, _. split; [reflexivity|]. cbn. repeat split. eexists. rewrite <- app_assoc. reflexivity.
  - eexists _, _. split; [reflexivity|]. cbn. repeat split. eexists. rewrite <- app_assoc. reflexivity.
Qed.

(** The file-read collaborator leaves its mark on the trace, whatever it
    returns. *)
Lemma read_source_traced path w res w' :
  jerry_port_read_source path w = Ok res w' →
  ∃ t, w_trace w' = w_trace w ++ ev_read_source (cstr path) :: t.
Proof.
  intros H. destruct (read_source_spec path w) as (res' & w'' & H' & _ & _ & _ & Ht & _).
  rewrite H in H'. injection H' as <- <-. exact Ht.
Qed.

Lemma jerry_string_eq buf w :
  jerry_string buf (length buf) w =
  Ok (jerry_string_value (fresh (dom (e_strings (w_engine w))))) (new_string buf w).
Proof.
  unfold jerry_string, new_string, jerry_value_copy, modify, get.
  unfold mbind, M_bind, mret, M_ret. rewrite firstn_all. reflexivity.
Qed.

Lemma string_bytes_new buf w :
  string_bytes (w_engine (new_string buf w))
    (jerry_string_value (fresh (dom (e_strings (w_engine w))))) = buf.
Proof. simpl. rewrite lookup_insert_eq. reflexivity. Qed.

Lemma jerry_parse_eq source name w :
  jerry_parse source (length source) name w =
  Ok (e_parse (w_engine w) source (string_bytes (w_engine w) name))
     (with_trace (λ t, t ++ [ev_parse source (string_bytes (w_engine w) name)]) w).
Proof.
  unfold jerry_parse, emit, modify, get.
  unfold mbind, M_bind, mret, M_ret. rewrite firstn_all. reflexivity.
Qed.

(** So does the parser. *)
Lemma jerry_parse_traced source name w v w' :
  jerry_parse source (length source) name w = Ok v w' →
  w_trace w' = w_trace w ++ [ev_parse source (string_bytes (w_engine w) name)].
Proof. rewrite jerry_parse_eq. by intros [= <- <-]. Qed.

Lemma jerry_throw_sz_eq kind message w :
  ∃ w', jerry_throw_sz kind message w =
          Ok (jerry_exception_value (fresh (dom (e_errors (w_engine w))))) w' ∧
    e_errors (w_engine w') !! fresh (dom (e_errors (w_engine w))) = Some (kind, message) ∧
    w_heap w' = w_heap w ∧ w_manager w' = w_manager w ∧ w_trace w' = w_trace w ∧
    w_platform w' = w_platform w.
Proof.
  eexists. split.
  { unfold jerry_throw_sz, jerry_value_copy, modify, get, mbind, M_bind, mret, M_ret.
    reflexivity. }
  simpl. rewrite lookup_insert_eq. by repeat split.
Qed.

Lemma jerry_value_free_eq v w :
  jerry_value_free v w = Ok tt (with_engine (set_refs (drop_ref v)) w).
Proof. reflexivity. Qed.

Lemma jerry_value_copy_eq v w :
  jerry_value_copy v w = Ok v (with_engine (set_refs (λ c, <[v := S (c v)]> c)) w).
Proof. reflexivity. Qed.

Lemma malloc_module_spec w :
  match p_oom (w_platform w) with
  | true :: _ => ∃ w', malloc_module w = Ok None w'
  | _ => ∃ w', malloc_module w = Ok (Some (fresh (dom (w_heap w)))) w' ∧
           w_heap w' = w_heap w ∧ w_manager w' = w_manager w
  end.
Proof.
  unfold malloc_module, malloc, mbind, M_bind.
  destruct (p_oom (w_platform w)) as [|[] o]; eexists; by repeat split.
Qed.

Lemma set_native_ptr_frame v p w :
  ∃ w', jerry_object_set_native_ptr v p w = Ok tt w' ∧
    w_heap w' = w_heap w ∧ w_manager w' = w_manager w.
Proof. destruct v; eexists; by repeat split. Qed.

Lemma resolve_load_spec in_path path realm_v w :
  ∃ src w3, jerry_port_read_source path w = Ok src w3 ∧
    match src with
    | None =>
        ∃ ref w', jerry_port_module_resolve_load in_path path realm_v w =
                    Ok (jerry_exception_value ref) w' ∧
          e_errors (w_engine w') !! ref = Some (JERRY_ERROR_SYNTAX, "Module file not found") ∧
          w_heap w' = w_heap w ∧ w_manager w' = w_manager w
    | Some source =>
        let ret := e_parse (w_engine w) source in_path in
        if jerry_value_is_exception ret then
          ∃ w', jerry_port_module_resolve_load in_path path realm_v w = Ok ret w' ∧
            w_heap w' = w_heap w ∧ w_manager w' = w_manager w
        else
          match p_oom (w_platform w3) with
          | true :: _ => jerry_port_module_resolve_load in_path path realm_v w = Crash
          | _ =>
              ∃ w', jerry_port_module_resolve_load in_path path realm_v w = Ok ret w' ∧
                w_heap w' =
                  <[fresh (dom (w_heap w)) :=
                      {| next_p := module_head_p (w_manager w); path_p := path;
                         base_path_length := jerry_port_get_directory_end path;
                         realm := realm_v; module := ret |}]> (w_heap w) ∧
                w_manager w' = {| module_head_p := Some (fresh (dom (w_heap w))) |}
          end
    end.
Proof.
  destruct (read_source_spec path w) as (src & w3 & Hread & He & Hh & Hm & _ & _).
  exists src, w3. split; [assumption|].
  unfold jerry_port_module_resolve_load. bind_step Hread.
  destruct src as [source|].
  - cbn zeta. bind_step (jerry_string_eq _ _).
    bind_step (jerry_parse_eq _ _ _).
    rewrite string_bytes_new.
    rewrite (bind_Ok _ _ _ _ _ (jerry_value_free_eq _ _)).
    replace (e_parse (w_engine (new_string in_path w3))) with (e_parse (w_engine w))
      by (rewrite <- He; reflexivity).
    destruct (jerry_value_is_exception (e_parse (w_engine w) source in_path)).
    + eexists. rewrite (bind_Ok _ _ _ _ _ (jerry_value_free_eq _ _)).
      split; [reflexivity|]. simpl. auto.
    + pose proof (malloc_module_spec
        (with_engine
           (set_refs (drop_ref (jerry_string_value (fresh (dom (e_strings (w_engine w3)))))))
           (with_trace (λ t, t ++ [ev_parse source in_path]) (new_string in_path w3))))
        as Hmalloc.
      cbn [w_platform with_engine with_trace new_string] in Hmalloc.
      destruct (p_oom (w_platform w3)) as [|[] o].
      * destruct Hmalloc as (w5 & Hmalloc & Hh5 & Hm5).
        rewrite (bind_Ok _ _ _ _ _ Hmalloc). cbn beta iota.
        bind_step (jerry_context_data_eq _).
        bind_step (jerry_value_copy_eq _ _).
        unfold modify at 1. unfold mbind at 1. unfold M_bind at 1. cbn beta iota.
        match goal with |- context [(jerry_object_set_native_ptr ?v ?p ≫= _) ?w0] =>
          destruct (set_native_ptr_frame v p w0) as (w6 & Hset & Hh6 & Hm6) end.
        rewrite (bind_Ok _ _ _ _ _ Hset). eexists. split; [reflexivity|].
        cbn. rewrite Hh6, Hm5. cbn. rewrite Hh5. cbn. rewrite Hh, Hm. auto.
      * destruct Hmalloc as (w5 & Hmalloc).
        rewrite (bind_Ok _ _ _ _ _ Hmalloc). reflexivity.
      * destruct Hmalloc as (w5 & Hmalloc & Hh5 & Hm5).
        rewrite (bind_Ok _ _ _ _ _ Hmalloc). cbn beta iota.
        bind_step (jerry_context_data_eq _).
        bind_step (jerry_value_copy_eq _ _).
        unfold modify at 1. unfold mbind at 1. unfold M_bind at 1. cbn beta iota.
        match goal with |- context [(jerry_object_set_native_ptr ?v ?p ≫= _) ?w0] =>
          destruct (set_native_ptr_frame v p w0) as (w6 & Hset & Hh6 & Hm6) end.
        rewrite (bind_Ok _ _ _ _ _ Hset). eexists. split; [reflexivity|].
        cbn. rewrite Hh6, Hm5. cbn. rewrite Hh5. cbn. rewrite Hh, Hm. auto.
  - rewrite (bind_Ok _ _ _ _ _ (jerry_value_free_eq _ _)).
    destruct (jerry_throw_sz_eq JERRY_ERROR_SYNTAX "Module file not found"
                (with_engine (set_refs (drop_ref realm_v)) w3)) as (w' & Hw' & Herr & Hh' & Hm' & _).
    eexists _, w'. split; [exact Hw'|]. split; [exact Herr|]. simpl in Hh', Hm'. split; congruence.
Qed.

(** ** What the resolver does to the cache *)

Lemma matches_key realm_v path e :
  matches realm_v path e = true ↔ key e = (realm_v, cstr path).
Proof.
  unfold matches, key. rewrite andb_true_iff, !bool_decide_eq_true, strcmp_eq.
  split; [intros [-> ->]; reflexivity | intros [= -> ->]; auto].
Qed.

Lemma find_matches_None realm_v path l :
  find (matches realm_v path) l = None ↔ (realm_v, cstr path) ∉ key <$> l.
Proof.
  induction l as [|e l IH]; simpl.
  - split; [intros _; apply not_elem_of_nil | reflexivity].
  - rewrite not_elem_of_cons. destruct (matches realm_v path e) eqn:E.
    + apply matches_key in E. split; [discriminate | intros [H _]; congruence].
    + rewrite IH. split; [|tauto]. intros H. split; [|assumption].
      intros Hk. symmetry in Hk. apply matches_key in Hk. congruence.
Qed.

Lemma find_matches_Some realm_v path l e :
  NoDup (key <$> l) → e ∈ l → key e = (realm_v, cstr path) →
  find (matches realm_v path) l = Some e.
Proof.
  induction l as [|e' l IH]; simpl.
  - intros _ H. by apply elem_of_nil in H.
  - rewrite list.NoDup_cons, elem_of_cons. intros [Hnew Hnd] [->|Hin] Hk.
    + apply matches_key in Hk. rewrite Hk. reflexivity.
    + destruct (matches realm_v path e') eqn:E; [|by apply IH].
      apply matches_key in E. exfalso. apply Hnew. rewrite E, <- Hk.
      apply list_elem_of_fmap. eauto.
Qed.

(** A call that misses the cache: it returns an exception and leaves the
    cache alone, or it returns a module and links in one record for it. *)
Lemma resolve_miss s r w in_path path w1 l v w' :
  cache_is w l →
  jerry_port_module_resolve_path s r w = Ok (in_path, Some path) w1 →
  find (matches (e_realm (w_engine w)) path) l = None →
  jerry_port_module_resolve s r w = Ok v w' →
  (jerry_value_is_exception v = true ∧ w_heap w' = w_heap w ∧ w_manager w' = w_manager w) ∨
  (jerry_value_is_exception v = false ∧
   ∃ a, (a ∉ l.*1) ∧
     cache_is w' ((a, {| r_path := path; r_base := jerry_port_get_directory_end path;
                         r_realm := e_realm (w_engine w); r_module := v |}) :: l)).
Proof.
  intros Hl Hpath Hfind Hres.
  pose proof (resolve_path_frame _ _ _ _ _ Hpath) as (He & Hh & Hm & _).
  rewrite (resolve_after_path _ _ _ _ _ _ _ Hpath Hl), Hfind in Hres.
  destruct (resolve_load_spec in_path path (e_realm (w_engine w)) (enter_realm w1))
    as (src & w3 & Hread & Hload).
  destruct src as [source|].
  - cbn zeta in Hload. destruct (jerry_value_is_exception _) eqn:Hexc.
    + destruct Hload as (w'' & Hload & Hh' & Hm'). rewrite Hload in Hres.
      injection Hres as <- <-. left. simpl in Hh', Hm'. split; [exact Hexc|]. split; congruence.
    + assert (Hins : ∀ w'',
        jerry_port_module_resolve_load in_path path (e_realm (w_engine w)) (enter_realm w1) =
          Ok (e_parse (w_engine (enter_realm w1)) source in_path) w'' →
        w_heap w'' =
          <[fresh (dom (w_heap (enter_realm w1))) :=
              {| next_p := module_head_p (w_manager (enter_realm w1)); path_p := path;
                 base_path_length := jerry_port_get_directory_end path;
                 realm := e_realm (w_engine w);
                 module := e_parse (w_engine (enter_realm w1)) source in_path |}]>
            (w_heap (enter_realm w1)) →
        w_manager w'' = {| module_head_p := Some (fresh (dom (w_heap (enter_realm w1)))) |} →
        jerry_value_is_exception v = false ∧
        ∃ a, (a ∉ l.*1) ∧
          cache_is w' ((a, {| r_path := path; r_base := jerry_port_get_directory_end path;
                              r_realm := e_realm (w_engine w); r_module := v |}) :: l)).
      { intros w'' Hload' Hh' Hm'. rewrite Hload' in Hres. injection Hres as <- <-.
        simpl in Hh', Hm', Hexc. rewrite Hh, Hm in Hh'. rewrite Hh in Hm'.
        split; [exact Hexc|]. exists (fresh (dom (w_heap w))).
        assert (Hfresh : fresh (dom (w_heap w)) ∉ l.*1).
        { intros Hin. apply (is_fresh (dom (w_heap w))).
          exact (lseg_allocated _ _ _ _ _ Hl Hin). }
        split; [exact Hfresh|].
        unfold cache_is. rewrite Hh', Hm'. simpl. split; [reflexivity|].
        eexists. rewrite lookup_insert_eq. split; [reflexivity|].
        split; [reflexivity|]. simpl.
        apply lseg_insert_frame; assumption. }
      destruct (p_oom (w_platform w3)) as [|[] o].
      * destruct Hload as (w'' & Hload & Hh' & Hm'). right. by apply (Hins w'').
      * congruence.
      * destruct Hload as (w'' & Hload & Hh' & Hm'). right. by apply (Hins w'').
  - destruct Hload as (ref & w'' & Hload & _ & Hh' & Hm'). rewrite Hload in Hres.
    injection Hres as <- <-. left. simpl in Hh', Hm'. split; [reflexivity|]. split; congruence.
Qed.

Lemma find_matches_elem realm_v path l e :
  find (matches realm_v path) l = Some e → e ∈ l ∧ key e = (realm_v, cstr path).
Proof.
  intros H. apply find_some in H as [Hin Hm]. split.
  - by apply list_elem_of_In.
  - by apply matches_key.
Qed.

(** A call that hits the cache: the handle of the record, one reference
    more, and nothing else. *)
Lemma resolve_hit s r w in_path path w1 l e :
  cache_is w l →
  jerry_port_module_resolve_path s r w = Ok (in_path, Some path) w1 →
  find (matches (e_realm (w_engine w)) path) l = Some e →
  ∃ w', jerry_port_module_resolve s r w = Ok (r_module e.2) w' ∧
    w_trace w' = w_trace w ∧ w_heap w' = w_heap w ∧ w_manager w' = w_manager w ∧
    e_refs (w_engine w') (r_module e.2) = S (e_refs (w_engine w) (r_module e.2)).
Proof.
  intros Hl Hpath Hfind.
  pose proof (resolve_path_frame _ _ _ _ _ Hpath) as (He & Hh & Hm & Htr & _).
  rewrite (resolve_after_path _ _ _ _ _ _ _ Hpath Hl), Hfind.
  eexists. split; [reflexivity|]. simpl. rewrite Htr, Hh, Hm, He.
  repeat split; try reflexivity.
  rewrite fn_lookup_insert. f_equal. unfold drop_ref.
  destruct (decide (e_realm (w_engine w) = r_module e.2)) as [Heq|Hne].
  - rewrite Heq, !fn_lookup_insert. reflexivity.
  - rewrite !fn_lookup_insert_ne by assumption. reflexivity.
Qed.

(** What a call of the resolver does to the cache: nothing, or one new record
    at the head, whose key no record had. *)
Lemma resolve_cache_step s r w v w' l :
  cache_is w l →
  jerry_port_module_resolve s r w = Ok v w' →
  (w_heap w' = w_heap w ∧ w_manager w' = w_manager w) ∨
  (∃ in_path path w1 a,
      jerry_port_module_resolve_path s r w = Ok (in_path, Some path) w1 ∧
      find (matches (e_realm (w_engine w)) path) l = None ∧
      jerry_value_is_exception v = false ∧
      (a ∉ l.*1) ∧
      cache_is w' ((a, {| r_path := path; r_base := jerry_port_get_directory_end path;
                          r_realm := e_realm (w_engine w); r_module := v |}) :: l)).
Proof.
  intros Hl Hres.
  destruct (jerry_port_module_resolve_path s r w) as [[in_path [path|]] w1| |] eqn:Hpath.
  - destruct (find (matches (e_realm (w_engine w)) path) l) as [e|] eqn:Hfind.
    + destruct (resolve_hit _ _ _ _ _ _ _ _ Hl Hpath Hfind) as (w'' & Hhit & _ & Hh & Hm & _).
      rewrite Hhit in Hres. injection Hres as _ <-. by left.
    + destruct (resolve_miss _ _ _ _ _ _ _ _ _ Hl Hpath Hfind Hres)
        as [(_ & Hh & Hm)|(Hexc & a & Ha & Hl')].
      * by left.
      * right. exists in_path, path, w1, a. auto.
  - unfold jerry_port_module_resolve in Hres. rewrite (bind_Ok _ _ _ _ _ Hpath) in Hres.
    cbn beta iota in Hres.
    pose proof (resolve_path_frame _ _ _ _ _ Hpath) as (He & Hh & Hm & _).
    destruct (jerry_throw_sz_eq JERRY_ERROR_COMMON "Out of memory" w1)
      as (w'' & Hthrow & _ & Hh' & Hm' & _).
    rewrite Hthrow in Hres. injection Hres as _ <-. left. split; congruence.
  - unfold jerry_port_module_resolve in Hres. unfold mbind, M_bind in Hres.
    rewrite Hpath in Hres. discriminate.
  - unfold jerry_port_module_resolve in Hres. unfold mbind, M_bind in Hres.
    rewrite Hpath in Hres. discriminate.
Qed.

(** When the buffer for the specifier cannot be allocated, the resolver
    writes through NULL. *)
Lemma resolve_path_oom_crashes specifier referrer w :
  head (p_oom (w_platform w)) = Some true →
  jerry_port_module_resolve specifier referrer w = Crash.
Proof.
  intros Hoom. destruct (malloc_fails w Hoom) as (w1 & Hmalloc).
  unfold jerry_port_module_resolve. apply bind_Crash.
  unfold jerry_port_module_resolve_path.
  bind_step (jerry_object_get_native_ptr_eq _ _).
  assert (Hrest : ∀ base, (in_path_length ← jerry_string_size specifier;
       in_path_ok ← malloc;
       if negb in_path_ok then crash
       else
         in_path_p ← jerry_string_to_buffer specifier in_path_length;
         path_p ← jerry_port_normalize_path in_path_p in_path_length base.1 base.2;
         mret (in_path_p, path_p)) w = Crash).
  { intros base. bind_step (jerry_string_size_eq _ _).
    rewrite (bind_Ok _ _ _ _ _ Hmalloc). reflexivity. }
  match goal with |- (?m ≫= _) w = _ =>
    destruct (m w) as [[base bn] w2| |] eqn:E end.
  - assert (w2 = w) as ->.
    { destruct (match referrer with jerry_object_value r => _ | _ => None end).
      + apply bind_inv in E as (m & w3 & Hl & E). apply load_inv in Hl as (-> & _).
        by injection E.
      + by injection E. }
    rewrite (bind_Ok _ _ _ _ _ E). exact (Hrest (base, bn)).
  - by apply bind_Crash.
  - unfold mbind at 1, M_bind at 1. rewrite E. exfalso.
    destruct (match referrer with jerry_object_value r => _ | _ => None end).
    + unfold mbind, M_bind, load in E. destruct (w_heap w !! p); discriminate.
    + discriminate.
Qed.

Lemma resolve_normalize_oom specifier referrer w in_path w1 :
  jerry_port_module_resolve_path specifier referrer w = Ok (in_path, None) w1 →
  ∃ ref w', jerry_port_module_resolve specifier referrer w = Ok (jerry_exception_value ref) w' ∧
    e_errors (w_engine w') !! ref = Some (JERRY_ERROR_COMMON, "Out of memory") ∧
    w_heap w' = w_heap w ∧ w_manager w' = w_manager w.
Proof.
  intros Hpath. pose proof (resolve_path_frame _ _ _ _ _ Hpath) as (He & Hh & Hm & _).
  unfold jerry_port_module_resolve. rewrite (bind_Ok _ _ _ _ _ Hpath). cbn beta iota.
  destruct (jerry_throw_sz_eq JERRY_ERROR_COMMON "Out of memory" w1)
    as (w' & Hthrow & Herr & Hh' & Hm' & _).
  eexists _, w'. split; [exact Hthrow|]. split; [exact Herr|]. split; congruence.
Qed.

(** ** Eviction and the invariant *)

Lemma cache_is_same w w' l :
  w_heap w' = w_heap w → w_manager w' = w_manager w → cache_is w l → cache_is w' l.
Proof. unfold cache_is. intros -> ->. auto. Qed.

Lemma filter_sublist {A} (f : A → bool) (l : list A) : sublist (List.filter f l) l.
Proof.
  induction l as [|x l IH]; simpl; [constructor|].
  destruct (f x); by constructor.
Qed.

Lemma elem_of_filter {A} (f : A → bool) (l : list A) x :
  x ∈ List.filter f l ↔ x ∈ l ∧ f x = true.
Proof. rewrite !list_elem_of_In. apply filter_In. Qed.

Lemma filter_kept_all realm_filter (l : list (ptr * module_record)) :
  jerry_value_is_object realm_filter = false → List.filter (kept realm_filter) l = [].
Proof.
  intros Hobj. induction l as [|e l IH]; [reflexivity|].
  simpl. unfold kept at 1. rewrite Hobj. exact IH.
Qed.

Lemma NoDup_fmap_inj_elem {A B} (f : A → B) (l : list A) x y :
  NoDup (f <$> l) → x ∈ l → y ∈ l → f x = f y → x = y.
Proof.
  induction l as [|z l IH]; simpl.
  - intros _ H. by apply elem_of_nil in H.
  - rewrite list.NoDup_cons, !elem_of_cons. intros [Hz Hnd] [->|Hx] [->|Hy] Hf.
    + reflexivity.
    + exfalso. apply Hz. rewrite Hf. apply list_elem_of_fmap. eauto.
    + exfalso. apply Hz. rewrite <- Hf. apply list_elem_of_fmap. eauto.
    + by apply IH.
Qed.

(** What [jerry_port_module_free] does to a cache that holds the records [l]. *)
Lemma module_free_spec realm_filter w l :
  cache_is w l →
  ∃ w', jerry_port_module_free_visit realm_filter w = Ok l.*1 w' ∧
    jerry_port_module_free realm_filter w = Ok tt w' ∧
    cache_is w' (List.filter (kept realm_filter) l) ∧
    (∀ a, a ∉ l.*1 → w_heap w' !! a = w_heap w !! a) ∧
    (∀ e, e ∈ l → kept realm_filter e = false → w_heap w' !! e.1 = None) ∧
    w_engine w' =
      set_refs (release_refs (List.filter (λ e, negb (kept realm_filter e)) l)) (w_engine w) ∧
    w_platform w' = w_platform w ∧ w_trace w' = w_trace w.
Proof.
  intros Hl.
  destruct (free_loop_spec realm_filter l [] (list_fuel w) w None
              (module_head_p (w_manager w)))
    as (w' & Hloop & Hrest); [reflexivity | exact Hl | reflexivity | |].
  { unfold list_fuel. apply Nat.lt_succ_r. exact (lseg_length _ _ _ Hl). }
  assert (Hvisit : jerry_port_module_free_visit realm_filter w = Ok l.*1 w').
  { unfold jerry_port_module_free_visit.
    rewrite (bind_Ok _ _ _ _ _ (jerry_context_data_eq _)). cbn beta zeta.
    rewrite (bind_Ok _ _ _ _ _ (get_eq _)). exact Hloop. }
  exists w'. split; [exact Hvisit|]. split; [|exact Hrest].
  unfold jerry_port_module_free. rewrite (bind_Ok _ _ _ _ _ Hvisit). reflexivity.
Qed.

Lemma cache_inv_same w w' l :
  w_heap w' = w_heap w → w_manager w' = w_manager w → cache_inv w l → cache_inv w' l.
Proof. intros Hh Hm (Hl & Hk & Hb). split; [|auto]. by apply (cache_is_same w). Qed.

Lemma resolve_inv s r w v w' l :
  cache_inv w l → jerry_port_module_resolve s r w = Ok v w' →
  cache_inv w' l ∨ ∃ e, cache_inv w' (e :: l) ∧ key e ∉ key <$> l.
Proof.
  intros (Hl & Hk & Hb) Hres.
  destruct (resolve_cache_step _ _ _ _ _ _ Hl Hres)
    as [[Hh Hm]|(in_path & path & w1 & a & Hpath & Hfind & Hexc & Ha & Hl')].
  - left. by apply (cache_inv_same w).
  - right. apply find_matches_None in Hfind.
    exists (a, {| r_path := path; r_base := jerry_port_get_directory_end path;
                  r_realm := e_realm (w_engine w); r_module := v |}).
    split; [|exact Hfind]. split; [exact Hl'|]. split.
    + rewrite fmap_cons. apply list.NoDup_cons. split; [exact Hfind | exact Hk].
    + constructor; [reflexivity | exact Hb].
Qed.

Lemma release_inv realm_filter w w' l :
  cache_inv w l → jerry_port_module_release realm_filter w = Ok tt w' →
  cache_inv w' (List.filter (kept realm_filter) l).
Proof.
  intros (Hl & Hk & Hb) Hrel.
  destruct (module_free_spec realm_filter w l Hl) as (w'' & _ & Hfree & Hl' & _).
  unfold jerry_port_module_release in Hrel. rewrite Hfree in Hrel. injection Hrel as <-.
  split; [exact Hl'|]. split.
  - eapply sublist_NoDup; [exact Hk|]. apply fmap_sublist, filter_sublist.
  - apply list.Forall_forall. intros e He. apply elem_of_filter in He as [He _].
    rewrite list.Forall_forall in Hb. by apply Hb.
Qed.

Lemma step_inv evict w w' l :
  port_step evict w w' → cache_inv w l →
  ∃ l', cache_inv w' l' ∧ (evict = false → ∃ pre, l' = pre ++ l).
Proof.
  intros Hstep Hinv. destruct Hstep as [w s r v w' Hres|w f w' He Hrel|w w' Hh Hm].
  - destruct (resolve_inv _ _ _ _ _ _ Hinv Hres) as [Hinv'|(e & Hinv' & _)].
    + exists l. split; [assumption|]. intros _. by exists [].
    + exists (e :: l). split; [assumption|]. intros _. by exists [e].
  - exists (List.filter (kept f) l). split; [by eapply release_inv|]. congruence.
  - exists l. split; [by apply (cache_inv_same w)|]. intros _. by exists [].
Qed.

Lemma steps_inv evict w w' l :
  rtc (port_step evict) w w' → cache_inv w l →
  ∃ l', cache_inv w' l' ∧ (evict = false → ∃ pre, l' = pre ++ l).
Proof.
  intros Hsteps. revert l. induction Hsteps as [w|w w1 w' Hstep _ IH]; intros l Hinv.
  - exists l. split; [assumption|]. intros _. by exists [].
  - destruct (step_inv _ _ _ _ Hstep Hinv) as (l1 & Hinv1 & Hpre1).
    destruct (IH _ Hinv1) as (l' & Hinv' & Hpre'). exists l'. split; [assumption|].
    intros He. destruct (Hpre1 He) as [p1 ->]. destruct (Hpre' He) as [p2 ->].
    exists (p2 ++ p1). by rewrite app_assoc.
Qed.

Lemma init_inv w0 w : jerry_port_module_manager_init w0 = Ok tt w → cache_inv w [].
Proof.
  intros [= <-]. split; [reflexivity|]. split; constructor.
Qed.

Lemma reachable_inv w : reachable w → ∃ l, cache_inv w l.
Proof.
  intros (w00 & w0 & Hinit & Hsteps). apply init_inv in Hinit.
  destruct (steps_inv _ _ _ _ Hsteps Hinit) as (l & Hinv & _). eauto.
Qed.

(** ** The example worlds *)

(** A call that returns [a] leaves [world_after] of its outcome. *)
Lemma world_after_eq {A} (o : outcome A) (a : A) :
  match o with Ok x _ => x = a | _ => False end → o = Ok a (world_after o).
Proof. destruct o; [intros ->; reflexivity | contradiction | contradiction]. Qed.

Lemma two_realms_cache_is : cache_is two_realms_world two_realms_cache.
Proof.
  unfold cache_is, two_realms_cache. simpl.
  split; [reflexivity|]. eexists. split; [vm_compute; reflexivity|]. split; [reflexivity|].
  split; [reflexivity|]. eexists. split; [vm_compute; reflexivity|]. split; [reflexivity|].
  split; [reflexivity|]. eexists. split; [vm_compute; reflexivity|]. split; reflexivity.
Defined.

Lemma loaded_world_reachable : reachable loaded_world.
Proof.
  exists example_world, example_world. split; [reflexivity|].
  eapply rtc_l; [|apply rtc_refl].
  eapply (step_resolve true example_world (jerry_string_value 1) jerry_undefined_value
            example_module).
  apply (world_after_eq (jerry_port_module_resolve (jerry_string_value 1)
                           jerry_undefined_value example_world) example_module).
  vm_compute. reflexivity.
Defined.

(** ** The port at work *)

Example strcmp_equal : strcmp (bytes "/proj/lib.js") (bytes "/proj/lib.js") = 0%Z.
Proof. reflexivity. Qed.

Example strcmp_differs : strcmp (bytes "/proj/lib.js") (bytes "/proj/lib.jt") = (-1)%Z.
Proof. reflexivity. Qed.

Example strcmp_stops_at_nul :
  strcmp (bytes "a" ++ [x00] ++ bytes "b") (bytes "a" ++ [x00] ++ bytes "c") = 0%Z.
Proof. reflexivity. Qed.

Example directory_end_of_empty : jerry_port_get_directory_end [] = 0.
Proof. reflexivity. Qed.

Example directory_end_of_root : jerry_port_get_directory_end (bytes "/") = 1.
Proof. reflexivity. Qed.

Example directory_end_of_relative : jerry_port_get_directory_end (bytes "a/b.js") = 2.
Proof. reflexivity. Qed.

(** The first resolution of a module reads and parses its file and links a
    record in at the head. *)
Example resolve_first_time :
  match jerry_port_module_resolve (jerry_string_value 1) jerry_undefined_value example_world with
  | Ok v w =>
      v = example_module ∧
      w_trace w = [ev_read_source (bytes "/proj/lib.js");
                   ev_parse (bytes "export let x = 1;") (bytes "/proj/lib.js")] ∧
      module_head_p (w_manager w) = Some 1%positive ∧
      record_of <$> w_heap w !! 1%positive =
        Some {| r_path := bytes "/proj/lib.js"; r_base := 6;
                r_realm := example_realm; r_module := example_module |}
  | _ => False
  end.
Proof. vm_compute. auto. Qed.

(** A sibling specifier is resolved against the directory of its referrer. *)
Example resolve_sibling :
  match jerry_port_module_resolve_path (jerry_string_value 4) example_module loaded_world with
  | Ok (in_path, path) _ => in_path = bytes "lib.js" ∧ path = Some (bytes "/proj/lib.js")
  | _ => False
  end.
Proof. vm_compute. auto. Qed.

(** When the buffer of [jerry_port_normalize_path] cannot be allocated, the
    resolver throws. *)
Example resolve_normalize_oom_example :
  match jerry_port_module_resolve (jerry_string_value 1) jerry_undefined_value oom_world_2 with
  | Ok (jerry_exception_value r) w =>
      e_errors (w_engine w) !! r = Some (JERRY_ERROR_COMMON, "Out of memory")
  | _ => False
  end.
Proof. vm_compute. reflexivity. Qed.

(** Releasing a realm unlinks its records, the first and the last of the list
    here. *)
Example release_one_realm :
  match jerry_port_module_release example_realm two_realms_world with
  | Ok _ w =>
      module_head_p (w_manager w) = Some 2%positive ∧
      next_p <$> w_heap w !! 2%positive = Some None ∧
      w_heap w !! 1%positive = None ∧ w_heap w !! 3%positive = None
  | _ => False
  end.
Proof. vm_compute. auto. Qed.

(** ** The properties of the port *)

(** C1. In a context, after a call of [jerry_port_module_resolve] that built
    the path [p1] and returned a module [v1], and after any further
    resolutions and host activity that evict nothing, a call in the same
    realm whose path is the same C string returns the handle [v1] again, with
    one more reference; it adds no event to the trace, so
    [jerry_port_read_source] and [jerry_parse] are not called
    ([read_source_traced], [jerry_parse_traced]), and it leaves the cache
    alone. *)
Theorem resolve_is_idempotent w0 s1 r1 in1 p1 wa v1 w1 w2 s2 r2 in2 p2 wb :
  reachable w0 →
  jerry_port_module_resolve_path s1 r1 w0 = Ok (in1, Some p1) wa →
  jerry_port_module_resolve s1 r1 w0 = Ok v1 w1 →
  jerry_value_is_exception v1 = false →
  rtc (port_step false) w1 w2 →
  jerry_port_module_resolve_path s2 r2 w2 = Ok (in2, Some p2) wb →
  cstr p2 = cstr p1 →
  e_realm (w_engine w2) = e_realm (w_engine w0) →
  ∃ w3,
    jerry_port_module_resolve s2 r2 w2 = Ok v1 w3 ∧
    e_refs (w_engine w3) v1 = S (e_refs (w_engine w2) v1) ∧
    w_trace w3 = w_trace w2 ∧
    w_heap w3 = w_heap w2 ∧ w_manager w3 = w_manager w2.
Proof.
  intros Hreach Hp1 Hr1 Hv1 Hsteps Hp2 Hpath Hrealm.
  destruct (reachable_inv w0 Hreach) as (l0 & Hinv0). pose proof Hinv0 as (Hl0 & Hk0 & Hb0).
  assert (Hfirst : ∃ l1 e, cache_inv w1 l1 ∧ e ∈ l1 ∧
            key e = (e_realm (w_engine w0), cstr p1) ∧ r_module e.2 = v1).
  { destruct (find (matches (e_realm (w_engine w0)) p1) l0) as [e|] eqn:Hfind.
    - destruct (resolve_hit _ _ _ _ _ _ _ _ Hl0 Hp1 Hfind) as (w' & Hhit & _ & Hh & Hm & _).
      rewrite Hhit in Hr1. injection Hr1 as <- <-.
      apply find_matches_elem in Hfind as [He Hke].
      exists l0, e. split; [by apply (cache_inv_same w0)|]. auto.
    - destruct (resolve_miss _ _ _ _ _ _ _ _ _ Hl0 Hp1 Hfind Hr1)
        as [(Hexc & _)|(_ & a & Ha & Hl1)]; [congruence|].
      apply find_matches_None in Hfind.
      exists ((a, {| r_path := p1; r_base := jerry_port_get_directory_end p1;
                     r_realm := e_realm (w_engine w0); r_module := v1 |}) :: l0),
             (a, {| r_path := p1; r_base := jerry_port_get_directory_end p1;
                    r_realm := e_realm (w_engine w0); r_module := v1 |}).
      split; [|split; [left|split; reflexivity]].
      split; [exact Hl1|]. split.
      + rewrite fmap_cons. apply list.NoDup_cons. split; [exact Hfind | exact Hk0].
      + constructor; [reflexivity | exact Hb0]. }
  destruct Hfirst as (l1 & e & Hinv1 & He1 & Hke & Hme).
  destruct (steps_inv _ _ _ _ Hsteps Hinv1) as (l2 & (Hl2 & Hk2 & _) & Hpre).
  destruct (Hpre eq_refl) as (pre & ->).
  assert (Hfind : find (matches (e_realm (w_engine w2)) p2) (pre ++ l1) = Some e).
  { apply find_matches_Some; [exact Hk2 | |].
    - apply elem_of_app. by right.
    - rewrite Hke, Hrealm, Hpath. reflexivity. }
  destruct (resolve_hit _ _ _ _ _ _ _ _ Hl2 Hp2 Hfind) as (w3 & Hhit & Htr & Hh & Hm & Hrefs).
  rewrite Hme in Hhit, Hrefs. exists w3. auto.
Qed.

Lemma resolve_idempotent_witness :
  ∃ w3,
    jerry_port_module_resolve (jerry_string_value 4) example_module busy_world =
      Ok example_module w3 ∧
    e_refs (w_engine w3) example_module = S (e_refs (w_engine busy_world) example_module) ∧
    w_trace w3 = w_trace busy_world ∧
    w_heap w3 = w_heap busy_world ∧ w_manager w3 = w_manager busy_world.
Proof.
  eapply (resolve_is_idempotent example_world (jerry_string_value 1) jerry_undefined_value
            (bytes "/proj/lib.js") (bytes "/proj/lib.js") example_world example_module
            loaded_world busy_world (jerry_string_value 4) example_module
            (bytes "lib.js") (bytes "/proj/lib.js") busy_world).
  - exists example_world, example_world. split; [reflexivity | apply rtc_refl].
  - vm_compute. reflexivity.
  - apply (world_after_eq (jerry_port_module_resolve (jerry_string_value 1)
                             jerry_undefined_value example_world) example_module).
    vm_compute. reflexivity.
  - reflexivity.
  - eapply rtc_l; [|apply rtc_refl].
    eapply (step_resolve false loaded_world (jerry_string_value 2) jerry_undefined_value
              example_parse_error).
    apply (world_after_eq (jerry_port_module_resolve (jerry_string_value 2)
                             jerry_undefined_value loaded_world) example_parse_error).
    vm_compute. reflexivity.
  - vm_compute. reflexivity.
  - reflexivity.
  - vm_compute. reflexivity.
Defined.

(** C2. An allocation failure on the buffer that receives the specifier is
    not surfaced as an exception: [malloc] is not checked there, and when it
    fails [jerry_port_module_resolve] writes through NULL.  (The allocations
    of [jerry_port_normalize_path] are checked: [resolve_normalize_oom].) *)
Theorem resolve_crashes_when_specifier_buffer_fails :
  jerry_port_module_resolve (jerry_string_value 1) jerry_undefined_value oom_world = Crash.
Proof. apply resolve_path_oom_crashes. reflexivity. Qed.

(** C3. When the path of a specifier has been built, the lookup has found no
    record for it and its file cannot be read (there is none, it is a
    directory, or it cannot be opened), [jerry_port_module_resolve] returns
    an exception of kind [JERRY_ERROR_SYNTAX] (which is not
    [JERRY_ERROR_REFERENCE]) with the message ["Module file not found"], and
    the list of the module manager is as it was: the same heap, the same
    head, the same records. *)
Theorem unreadable_module_is_syntax_error w l specifier referrer in_path path w1 :
  cache_is w l →
  jerry_port_module_resolve_path specifier referrer w = Ok (in_path, Some path) w1 →
  find (matches (e_realm (w_engine w)) path) l = None →
  unreadable w path →
  ∃ ref w',
    jerry_port_module_resolve specifier referrer w = Ok (jerry_exception_value ref) w' ∧
    e_errors (w_engine w') !! ref = Some (JERRY_ERROR_SYNTAX, "Module file not found") ∧
    JERRY_ERROR_SYNTAX ≠ JERRY_ERROR_REFERENCE ∧
    w_heap w' = w_heap w ∧ w_manager w' = w_manager w ∧ cache_is w' l.
Proof.
  intros Hl Hpath Hfind Hun.
  pose proof (resolve_path_frame _ _ _ _ _ Hpath) as (He & Hh & Hm & _ & Hfs & _).
  rewrite (resolve_after_path _ _ _ _ _ _ _ Hpath Hl), Hfind.
  destruct (resolve_load_spec in_path path (e_realm (w_engine w)) (enter_realm w1))
    as (src & w3 & Hread & Hload).
  destruct (read_source_spec path (enter_realm w1)) as (src' & w3' & Hread' & _ & _ & _ & _ & Hsrc).
  rewrite Hread in Hread'. injection Hread' as <- <-.
  assert (src = None) as ->.
  { unfold unreadable in Hun. cbn [enter_realm with_engine w_platform] in Hsrc.
    rewrite Hfs in Hsrc. destruct (p_fs (w_platform w) (cstr path)) as [f|]; [|assumption].
    destruct Hun as [Hd | Ho]; [by rewrite Hd in Hsrc|].
    rewrite Ho, orb_true_r in Hsrc. assumption. }
  destruct Hload as (ref & w' & Hload & Herr & Hh' & Hm').
  simpl in Hh', Hm'. rewrite Hh in Hh'. rewrite Hm in Hm'.
  exists ref, w'. split; [exact Hload|]. split; [exact Herr|]. split; [discriminate|].
  split; [exact Hh'|]. split; [exact Hm'|]. by apply (cache_is_same w).
Qed.

Lemma unreadable_module_witness :
  ∃ ref w',
    jerry_port_module_resolve (jerry_string_value 3) example_module loaded_world =
      Ok (jerry_exception_value ref) w' ∧
    e_errors (w_engine w') !! ref = Some (JERRY_ERROR_SYNTAX, "Module file not found") ∧
    JERRY_ERROR_SYNTAX ≠ JERRY_ERROR_REFERENCE ∧
    w_heap w' = w_heap loaded_world ∧ w_manager w' = w_manager loaded_world ∧
    cache_is w' [(1%positive, record_of (example_record None "/proj/lib.js" example_realm 50))].
Proof.
  eapply (unreadable_module_is_syntax_error loaded_world _ _ _
            (bytes "nothere.js") (bytes "/proj/nothere.js") loaded_world).
  - split; [reflexivity|]. eexists. split; [vm_compute; reflexivity|].
    split; [vm_compute; reflexivity | reflexivity].
  - vm_compute. reflexivity.
  - vm_compute. reflexivity.
  - vm_compute. exact I.
Defined.

(** C4. When the path of a specifier has been built, the lookup has found no
    record for it, its file has been read and the parser answers with an
    exception, [jerry_port_module_resolve] returns that very value, and the
    list of the module manager is as it was: no record has been made. *)
Theorem parse_failure_is_propagated w l specifier referrer in_path path w1 f :
  cache_is w l →
  jerry_port_module_resolve_path specifier referrer w = Ok (in_path, Some path) w1 →
  find (matches (e_realm (w_engine w)) path) l = None →
  p_fs (w_platform w) (cstr path) = Some f →
  f_is_dir f = false → f_can_open f = true → length (f_data f) ≤ f_fread f →
  malloc_ok w1 →
  jerry_value_is_exception (e_parse (w_engine w) (f_data f) in_path) = true →
  ∃ w',
    jerry_port_module_resolve specifier referrer w =
      Ok (e_parse (w_engine w) (f_data f) in_path) w' ∧
    w_heap w' = w_heap w ∧ w_manager w' = w_manager w ∧ cache_is w' l.
Proof.
  intros Hl Hpath Hfind Hf Hdir Hopen Hfread Hok Hexc.
  pose proof (resolve_path_frame _ _ _ _ _ Hpath) as (He & Hh & Hm & _ & Hfs & _).
  rewrite (resolve_after_path _ _ _ _ _ _ _ Hpath Hl), Hfind.
  destruct (resolve_load_spec in_path path (e_realm (w_engine w)) (enter_realm w1))
    as (src & w3 & Hread & Hload).
  destruct (read_source_spec path (enter_realm w1))
    as (src' & w3' & Hread' & _ & _ & _ & _ & Hsrc).
  rewrite Hread in Hread'. injection Hread' as <- <-.
  cbn [enter_realm with_engine w_platform] in Hsrc.
  rewrite Hfs, Hf, Hdir, Hopen in Hsrc. cbn [orb negb] in Hsrc.
  destruct (Hsrc Hok Hfread) as (-> & _).
  cbn zeta in Hload. cbn [enter_realm with_engine w_engine set_refs e_parse] in Hload.
  rewrite He in Hload. cbn [w_heap w_manager enter_realm with_engine] in Hload.
  rewrite Hexc in Hload.
  destruct Hload as (w' & Hload & Hh' & Hm'). rewrite Hh in Hh'. rewrite Hm in Hm'.
  exists w'. split; [exact Hload|]. split; [exact Hh'|]. split; [exact Hm'|].
  by apply (cache_is_same w).
Qed.

Lemma parse_failure_witness :
  ∃ w',
    jerry_port_module_resolve (jerry_string_value 2) jerry_undefined_value loaded_world =
      Ok example_parse_error w' ∧
    w_heap w' = w_heap loaded_world ∧ w_manager w' = w_manager loaded_world ∧
    cache_is w' [(1%positive, record_of (example_record None "/proj/lib.js" example_realm 50))].
Proof.
  eapply (parse_failure_is_propagated loaded_world _ _ _
            (bytes "/proj/bad.js") (bytes "/proj/bad.js") loaded_world
            {| f_is_dir := false; f_can_open := true; f_data := bytes "export let";
               f_fread := 10 |}).
  - split; [reflexivity|]. eexists. split; [vm_compute; reflexivity|].
    split; [vm_compute; reflexivity | reflexivity].
  - vm_compute. reflexivity.
  - vm_compute. reflexivity.
  - vm_compute. reflexivity.
  - reflexivity.
  - reflexivity.
  - vm_compute. lia.
  - vm_compute. discriminate.
  - vm_compute. reflexivity.
Defined.

(** C5. On a cache that holds the records [l], of any realms,
    [jerry_port_module_free] with an object [realm_filter] leaves exactly the
    records whose realm handle is not [realm_filter], each at its address and
    in the order they had; the records of [realm_filter] are freed and their
    handles released; the head is the first record that remains; the loop
    visits every record once, in order; and on an empty cache nothing
    changes. *)
Theorem evict_realm_removes_exactly_its_records w l realm_filter :
  jerry_value_is_object realm_filter = true →
  cache_is w l →
  ∃ w',
    jerry_port_module_free realm_filter w = Ok tt w' ∧
    cache_is w' (List.filter (λ e, bool_decide (r_realm e.2 ≠ realm_filter)) l) ∧
    (∀ e, e ∈ l → r_realm e.2 = realm_filter → w_heap w' !! e.1 = None) ∧
    (∀ a, a ∉ l.*1 → w_heap w' !! a = w_heap w !! a) ∧
    e_refs (w_engine w') =
      release_refs (List.filter (λ e, bool_decide (r_realm e.2 = realm_filter)) l)
        (e_refs (w_engine w)) ∧
    module_head_p (w_manager w') =
      head (List.filter (λ e, bool_decide (r_realm e.2 ≠ realm_filter)) l).*1 ∧
    jerry_port_module_free_visit realm_filter w = Ok l.*1 w' ∧
    NoDup l.*1 ∧
    (l = [] → w' = w).
Proof.
  intros Hobj Hl.
  destruct (module_free_spec realm_filter w l Hl)
    as (w' & Hvisit & Hfree & Hl' & Hframe & Hgone & Heng & Hplat & Htr).
  assert (Hkept : ∀ e, kept realm_filter e = bool_decide (r_realm e.2 ≠ realm_filter)).
  { intros e. unfold kept. rewrite Hobj. cbn [negb orb]. symmetry. apply bool_decide_not. }
  assert (Hdrop : ∀ e, negb (kept realm_filter e) = bool_decide (r_realm e.2 = realm_filter)).
  { intros e. unfold kept. rewrite Hobj. cbn [negb orb]. apply negb_involutive. }
  rewrite (List.filter_ext _ _ Hkept) in Hl'.
  rewrite (List.filter_ext _ _ Hdrop) in Heng.
  exists w'. split; [exact Hfree|]. split; [exact Hl'|]. split.
  { intros e He Hr. apply Hgone; [assumption|]. rewrite Hkept.
    apply bool_decide_eq_false. tauto. }
  split; [exact Hframe|]. split; [by rewrite Heng|].
  split; [exact (lseg_head _ _ _ Hl')|]. split; [exact Hvisit|].
  split; [exact (lseg_NoDup _ _ _ Hl)|].
  intros ->. apply world_eq; try assumption.
  - rewrite Heng. by destruct (w_engine w).
  - apply map_eq. intros a. apply Hframe. apply not_elem_of_nil.
  - simpl in Hl'. unfold cache_is in Hl, Hl'. simpl in Hl, Hl'.
    destruct (w_manager w), (w_manager w'). simpl in *. congruence.
Qed.

Lemma evict_realm_witness :
  ∃ w',
    jerry_port_module_free example_realm two_realms_world = Ok tt w' ∧
    cache_is w'
      [(2%positive, record_of (example_record (Some 1%positive) "/proj/b.js" other_realm 52))] ∧
    module_head_p (w_manager w') = Some 2%positive ∧
    jerry_port_module_free_visit example_realm two_realms_world =
      Ok [3%positive; 2%positive; 1%positive] w'.
Proof.
  destruct (evict_realm_removes_exactly_its_records two_realms_world two_realms_cache
              example_realm eq_refl two_realms_cache_is)
    as (w' & Hfree & Hl & _ & _ & _ & Hhead & Hvisit & _).
  exists w'. split; [exact Hfree|]. split; [exact Hl|]. split; [exact Hhead | exact Hvisit].
Defined.

(** C6. On a cache that holds the records [l], [jerry_port_module_free] with a
    filter that is not an object leaves the head NULL and the list empty,
    frees every record, and then the lookup loop finds nothing for any realm
    and path; [jerry_port_module_manager_deinit] leaves the same heap and the
    same head. *)
Theorem evict_all_empties_cache w l realm_filter :
  jerry_value_is_object realm_filter = false →
  cache_is w l →
  ∃ w',
    jerry_port_module_free realm_filter w = Ok tt w' ∧
    module_head_p (w_manager w') = None ∧
    cache_is w' [] ∧
    (∀ e, e ∈ l → w_heap w' !! e.1 = None) ∧
    (∀ realm_v path,
        jerry_port_module_resolve_lookup (list_fuel w') (module_head_p (w_manager w'))
          realm_v path w' = Ok None w') ∧
    ∃ w'', jerry_port_module_manager_deinit w = Ok tt w'' ∧
      w_heap w'' = w_heap w' ∧ w_manager w'' = w_manager w'.
Proof.
  intros Hobj Hl.
  destruct (module_free_spec realm_filter w l Hl)
    as (w' & _ & Hfree & Hl' & Hframe & Hgone & _).
  rewrite (filter_kept_all _ _ Hobj) in Hl'.
  assert (Hall : ∀ f e, jerry_value_is_object f = false → kept f e = false).
  { intros f e Hf. unfold kept. by rewrite Hf. }
  exists w'. split; [exact Hfree|]. split; [exact Hl'|]. split; [exact Hl'|].
  split; [intros e He; apply Hgone; auto|]. split.
  { intros realm_v path. unfold cache_is in Hl'. simpl in Hl'. rewrite Hl'. reflexivity. }
  destruct (module_free_spec jerry_undefined_value w l Hl)
    as (wu & _ & Hfreeu & Hlu & Hframeu & Hgoneu & _).
  rewrite (filter_kept_all jerry_undefined_value l eq_refl) in Hlu.
  eexists. split.
  { unfold jerry_port_module_manager_deinit, jerry_undefined.
    unfold mbind at 1, M_bind at 1, mret, M_ret.
    rewrite (bind_Ok _ _ _ _ _ Hfreeu). reflexivity. }
  simpl. split.
  - apply map_eq. intros a. destruct (decide (a ∈ l.*1)) as [Hin|Hnin].
    + apply list_elem_of_fmap in Hin as (e & -> & He).
      rewrite Hgone, Hgoneu; auto.
    + rewrite Hframe, Hframeu; auto.
  - unfold cache_is in Hl', Hlu. simpl in Hl', Hlu.
    destruct (w_manager wu), (w_manager w'). simpl in *. congruence.
Qed.

Lemma evict_all_witness :
  ∃ w',
    jerry_port_module_free jerry_undefined_value two_realms_world = Ok tt w' ∧
    module_head_p (w_manager w') = None ∧
    cache_is w' [] ∧
    jerry_port_module_resolve_lookup (list_fuel w') (module_head_p (w_manager w'))
      example_realm (bytes "/proj/a.js") w' = Ok None w'.
Proof.
  destruct (evict_all_empties_cache two_realms_world two_realms_cache
              jerry_undefined_value eq_refl two_realms_cache_is)
    as (w' & Hfree & Hhead & Hl & _ & Hlookup & _).
  exists w'. split; [exact Hfree|]. split; [exact Hhead|]. split; [exact Hl|].
  apply Hlookup.
Defined.

(** C7. For every NUL-terminated path, [jerry_port_get_directory_end] returns
    0 when the path holds no separator, and otherwise the index just after
    the last ['/']; for ["/a/b/c.js"] it returns the length of ["/a/b/"], and
    that prefix followed by the sibling specifier ["d.js"] is ["/a/b/d.js"]. *)
Theorem directory_end_after_last_separator (path : list jerry_char_t) :
  (SEP ∉ cstr path → jerry_port_get_directory_end path = 0) ∧
  (∀ i, i < strlen path → char_at path i = SEP →
        (∀ j, i < j < strlen path → char_at path j ≠ SEP) →
        jerry_port_get_directory_end path = S i) ∧
  (path = bytes "/a/b/c.js" →
     jerry_port_get_directory_end path = length (bytes "/a/b/") ∧
     take (jerry_port_get_directory_end path) path = bytes "/a/b/" ∧
     take (jerry_port_get_directory_end path) path ++ bytes "d.js" = bytes "/a/b/d.js").
Proof.
  split; [|split].
  - intros Hsep. unfold jerry_port_get_directory_end.
    destruct (jerry_port_get_directory_end_loop path (strlen path)) as [|i] eqn:E;
      [reflexivity|].
    apply directory_end_loop_succ in E as (Hi & Hc & _).
    exfalso. apply Hsep. apply char_at_lookup in Hc; [|discriminate].
    apply list_elem_of_lookup. exists i. by rewrite cstr_lookup.
  - intros i Hi Hc Hlast. by apply directory_end_loop_last.
  - intros ->. vm_compute. auto.
Qed.

Lemma directory_end_witness :
  jerry_port_get_directory_end (bytes "c.js") = 0 ∧
  jerry_port_get_directory_end (bytes "/a/b/c.js") = 5.
Proof.
  split.
  - apply (proj1 (directory_end_after_last_separator (bytes "c.js"))).
    vm_compute. intros H.
    repeat (apply elem_of_cons in H as [H|H]; [discriminate|]).
    by apply elem_of_nil in H.
  - apply (proj1 (proj2 (directory_end_after_last_separator (bytes "/a/b/c.js"))) 4).
    + vm_compute. lia.
    + reflexivity.
    + change (strlen (bytes "/a/b/c.js")) with 9. intros j Hj.
      destruct j as [|[|[|[|[|[|[|[|[|j]]]]]]]]]; try lia; vm_compute; discriminate.
Defined.

(** C8. In every cache state that a sequence of resolutions and evictions
    reaches, no two records have the same realm handle and the same path
    string; a resolution leaves the list alone or links in one record that
    no record matched (same realm handle, [strcmp] equal to 0), and an
    eviction leaves a sublist. *)
Theorem one_record_per_realm_and_path w :
  reachable w →
  ∃ l, cache_is w l ∧
    NoDup (key <$> l) ∧
    (∀ e1 e2, e1 ∈ l → e2 ∈ l → r_realm e1.2 = r_realm e2.2 →
              cstr (r_path e1.2) = cstr (r_path e2.2) → e1 = e2) ∧
    (∀ specifier referrer v w',
        jerry_port_module_resolve specifier referrer w = Ok v w' →
        cache_is w' l ∨
        ∃ e, cache_is w' (e :: l) ∧
          ∀ e', e' ∈ l →
            ¬ (r_realm e'.2 = r_realm e.2 ∧ strcmp (r_path e'.2) (r_path e.2) = 0%Z)) ∧
    (∀ realm_filter w',
        jerry_port_module_release realm_filter w = Ok tt w' →
        cache_is w' (List.filter (kept realm_filter) l)).
Proof.
  intros Hreach. destruct (reachable_inv w Hreach) as (l & Hinv).
  pose proof Hinv as (Hl & Hk & Hb).
  exists l. split; [exact Hl|]. split; [exact Hk|]. split; [|split].
  - intros e1 e2 H1 H2 Hr Hp.
    apply (NoDup_fmap_inj_elem key l); auto. unfold key. congruence.
  - intros s r v w' Hres.
    destruct (resolve_inv _ _ _ _ _ _ Hinv Hres) as [(Hl' & _)|(e & (Hl' & _) & Hnew)].
    + by left.
    + right. exists e. split; [exact Hl'|]. intros e' He' [Hr Hp]. apply Hnew.
      apply list_elem_of_fmap. exists e'. split; [|exact He'].
      apply strcmp_eq in Hp. unfold key. congruence.
  - intros f w' Hrel. by destruct (release_inv _ _ _ _ Hinv Hrel) as (Hl' & _).
Qed.

Lemma one_record_witness :
  ∃ l, cache_is loaded_world l ∧ NoDup (key <$> l).
Proof.
  destruct (one_record_per_realm_and_path loaded_world loaded_world_reachable)
    as (l & Hl & Hk & _).
  exists l. split; assumption.
Defined.

(** C9. For every specifier and every non-empty base directory (and when the
    buffer can be allocated), [jerry_port_normalize_path] builds the
    concatenation of the base and the specifier before it canonicalises: what
    it returns is what [realpath] makes of that concatenation, or the
    concatenation itself when [realpath] fails.  Nothing looks at whether the
    specifier is absolute: the base is prepended to it all the same. *)
Theorem normalize_path_prepends_base in_path in_len base base_len w :
  0 < base_len → base_len ≤ length base → in_len ≤ length in_path → malloc_ok w →
  let raw := take base_len base ++ take in_len in_path in
  ∃ w', jerry_port_normalize_path in_path in_len (Some base) base_len w =
          Ok (Some (default raw (p_realpath (w_platform w) (cstr raw)))) w' ∧
        take base_len raw = take base_len base.
Proof.
  intros Hb Hbl Hil Hok raw.
  destruct (malloc_ok_eq w Hok) as (w1 & Hmalloc & (_ & _ & _ & _ & _ & Hrp) & _).
  exists w1. split.
  - unfold jerry_port_normalize_path, memcpy, realpath.
    rewrite decide_True by assumption.
    rewrite (decide_True (P := base_len ≤ S (length base))) by lia.
    rewrite (decide_True (P := in_len ≤ S (length in_path))) by lia.
    rewrite !take_app_le by assumption.
    unfold mbind, M_bind. rewrite Hmalloc. cbn [negb]. unfold mret, M_ret, get.
    fold raw. rewrite Hrp. destruct (p_realpath _ _); reflexivity.
  - unfold raw. rewrite take_app_le by (rewrite length_take; lia).
    rewrite take_take. f_equal. lia.
Qed.

Lemma normalize_path_witness :
  ∃ w', jerry_port_normalize_path (bytes "/x.js") 5 (Some (bytes "/a/b/c.js")) 5
          example_world = Ok (Some (bytes "/a/b//x.js")) w' ∧
        take 5 (bytes "/a/b//x.js") = bytes "/a/b/".
Proof.
  apply (normalize_path_prepends_base (bytes "/x.js") 5 (bytes "/a/b/c.js") 5 example_world).
  - lia.
  - vm_compute. lia.
  - vm_compute. lia.
  - vm_compute. discriminate.
Defined.

(** C10. In every cache state that a sequence of resolutions and evictions
    reaches, every record has
    [base_path_length = jerry_port_get_directory_end (path)]: it does not
    exceed the length of the path string, and it is 0 or the prefix of the
    path of that length ends in a separator. *)
Theorem base_path_length_is_directory_end w l e :
  reachable w → cache_is w l → e ∈ l →
  r_base e.2 = jerry_port_get_directory_end (r_path e.2) ∧
  r_base e.2 ≤ strlen (r_path e.2) ∧
  r_base e.2 ≤ length (r_path e.2) ∧
  (r_base e.2 = 0 ∨ list.last (take (r_base e.2) (r_path e.2)) = Some SEP).
Proof.
  intros Hreach Hl He. destruct (reachable_inv w Hreach) as (l' & Hl' & _ & Hb).
  rewrite (lseg_functional _ _ _ _ Hl Hl') in He.
  rewrite list.Forall_forall in Hb. specialize (Hb e He). unfold base_ok in Hb.
  split; [exact Hb|]. rewrite Hb. unfold jerry_port_get_directory_end.
  pose proof (directory_end_loop_le (r_path e.2) (strlen (r_path e.2))) as Hle.
  pose proof (strlen_le (r_path e.2)) as Hlen.
  split; [exact Hle|]. split; [lia|].
  destruct (jerry_port_get_directory_end_loop (r_path e.2) (strlen (r_path e.2)))
    as [|i] eqn:E; [by left|right].
  apply directory_end_loop_succ in E as (Hi & Hc & _).
  apply char_at_lookup in Hc; [|discriminate].
  erewrite take_S_r by exact Hc. apply last_snoc.
Qed.

Lemma base_path_length_witness :
  let e := (1%positive, record_of (example_record None "/proj/lib.js" example_realm 50)) in
  r_base e.2 = jerry_port_get_directory_end (r_path e.2) ∧
  r_base e.2 ≤ strlen (r_path e.2) ∧
  r_base e.2 ≤ length (r_path e.2) ∧
  (r_base e.2 = 0 ∨ list.last (take (r_base e.2) (r_path e.2)) = Some SEP).
Proof.
  apply (base_path_length_is_directory_end loaded_world
           [(1%positive, record_of (example_record None "/proj/lib.js" example_realm 50))]).
  - exact loaded_world_reachable.
  - split; [reflexivity|]. eexists. split; [vm_compute; reflexivity|].
    split; [vm_compute; reflexivity | reflexivity].
  - left.
Defined.

(** ** More on reading a source file *)

(** All that a call of [jerry_port_read_source] can do. *)
Lemma read_source_outcome path w :
  ∃ res w', jerry_port_read_source path w = Ok res w' ∧
    w_engine w' = w_engine w ∧ w_heap w' = w_heap w ∧ w_manager w' = w_manager w ∧
    p_fs (w_platform w') = p_fs (w_platform w) ∧
    p_realpath (w_platform w') = p_realpath (w_platform w) ∧
    match res with
    | Some buf =>
        ∃ f, regular_file w path f ∧ malloc_ok w ∧ length (f_data f) ≤ f_fread f ∧
          buf = f_data f ∧
          w_trace w' = w_trace w ++ [ev_read_source (cstr path)] ∧
          p_oom (w_platform w') = tail (p_oom (w_platform w))
    | None =>
        (∃ format, w_trace w' =
                     w_trace w ++ [ev_read_source (cstr path); ev_log format (cstr path)]) ∧
        ((unreadable w path ∧ p_oom (w_platform w') = p_oom (w_platform w)) ∨
         (∃ f, regular_file w path f ∧
               (head (p_oom (w_platform w)) = Some true ∨ f_fread f < length (f_data f)) ∧
               p_oom (w_platform w') = tail (p_oom (w_platform w))))
    end.
Proof.
  unfold jerry_port_read_source, regular_file, unreadable.
  unfold emit at 1. unfold modify at 1. unfold mbind at 1. unfold M_bind at 1. cbn beta iota.
  bind_step (get_eq _).
  cbn [w_platform with_trace].
  destruct (p_fs (w_platform w) (cstr path)) as [f|] eqn:Hfs.
  - destruct (f_is_dir f) eqn:Hdir; [|destruct (f_can_open f) eqn:Hopen]; cbn [orb negb].
    + eexists None, _. split; [reflexivity|]. cbn.
      do 5 (split; [reflexivity|]). split.
      * eexists. rewrite <- app_assoc. reflexivity.
      * left. auto.
    + unfold mbind at 1. unfold M_bind at 1.
      unfold malloc_ok, malloc. cbn [w_platform with_trace].
      destruct (p_oom (w_platform w)) as [|[] o] eqn:E; cbn beta iota; cbn [negb head tail].
      * unfold jerry_port_get_file_size. rewrite firstn_all.
        case_decide as Hlen.
        -- eexists None, _. split; [reflexivity|]. cbn. rewrite ?E.
           do 5 (split; [reflexivity|]). split.
           ++ eexists. rewrite <- app_assoc. reflexivity.
           ++ right. exists f. split; [auto|]. split; [|reflexivity].
              right. rewrite length_take in Hlen. lia.
        -- eexists (Some _), _. split; [reflexivity|]. cbn. rewrite ?E.
           do 5 (split; [reflexivity|]). exists f.
           rewrite length_take in Hlen.
           split; [auto|]. split; [discriminate|]. split; [lia|].
           split; [apply take_ge; lia|]. split; reflexivity.
      * eexists None, _. split; [reflexivity|]. cbn.
        do 5 (split; [reflexivity|]). split.
        -- eexists. rewrite <- app_assoc. reflexivity.
        -- right. exists f. split; [auto|]. split; [by left | reflexivity].
      * unfold jerry_port_get_file_size. rewrite firstn_all.
        case_decide as Hlen.
        -- eexists None, _. split; [reflexivity|]. cbn.
           do 5 (split; [reflexivity|]). split.
           ++ eexists. rewrite <- app_assoc. reflexivity.
           ++ right. exists f. split; [auto|]. split; [|reflexivity].
              right. rewrite length_take in Hlen. lia.
        -- eexists (Some _), _. split; [reflexivity|]. cbn.
           do 5 (split; [reflexivity|]). exists f.
           rewrite length_take in Hlen.
           split; [auto|]. split; [discriminate|]. split; [lia|].
           split; [apply take_ge; lia|]. split; reflexivity.
    + eexists None, _. split; [reflexivity|]. cbn.
      do 5 (split; [reflexivity|]). split.
      * eexists. rewrite <- app_assoc. reflexivity.
      * left. auto.
  - eexists None, _. split; [reflexivity|]. cbn.
    do 5 (split; [reflexivity|]). split.
    + eexists. rewrite <- app_assoc. reflexivity.
    + left. auto.
Qed.



(** X2. A call of [jerry_port_read_source] that returns NULL has logged one
    message about the file name, after the read itself; a call that returns
    a buffer has logged none.  Either way the engine, the heap of records and
    the module manager are as they were. *)
Theorem read_source_logs_each_failure path w res w' :
  jerry_port_read_source path w = Ok res w' →
  w_engine w' = w_engine w ∧ w_heap w' = w_heap w ∧ w_manager w' = w_manager w ∧
  match res with
  | Some _ => w_trace w' = w_trace w ++ [ev_read_source (cstr path)]
  | None => ∃ format, w_trace w' =
                        w_trace w ++ [ev_read_source (cstr path); ev_log format (cstr path)]
  end.
Proof.
  intros Hread.
  destruct (read_source_outcome path w) as (res' & w'' & Hread' & He & Hh & Hm & _ & _ & Hres).
  rewrite Hread in Hread'. injection Hread' as <- <-.
  split; [exact He|]. split; [exact Hh|]. split; [exact Hm|].
  destruct res as [buf|].
  - by destruct Hres as (f & _ & _ & _ & _ & Htr & _).
  - by destruct Hres as (Htr & _).
Qed.

Lemma read_source_logs_witness :
  ∃ format,
    w_trace (world_after (jerry_port_read_source (bytes "/proj") example_world)) =
    w_trace example_world ++ [ev_read_source (bytes "/proj"); ev_log format (bytes "/proj")].
Proof.
  apply (read_source_logs_each_failure (bytes "/proj") example_world None
           (world_after (jerry_port_read_source (bytes "/proj") example_world))).
  apply (world_after_eq (jerry_port_read_source (bytes "/proj") example_world) None).
  vm_compute. reflexivity.
Defined.

(** ** More on normalising a path *)

Lemma malloc_outcome w :
  ∃ ok w1, malloc w = Ok ok w1 ∧ only_malloc w w1 ∧
    (ok = false ↔ head (p_oom (w_platform w)) = Some true) ∧
    p_oom (w_platform w1) = tail (p_oom (w_platform w)).
Proof.
  unfold malloc. destruct (p_oom (w_platform w)) as [|[] o] eqn:E; simpl.
  - exists true, w. rewrite E. split; [reflexivity|]. split; [apply only_malloc_refl|].
    split; [split; discriminate | reflexivity].
  - eexists false, _. split; [reflexivity|]. split; [by repeat split|].
    split; [tauto | reflexivity].
  - eexists true, _. split; [reflexivity|]. split; [by repeat split|].
    split; [split; discriminate | reflexivity].
Qed.

(** All that a call of [jerry_port_normalize_path] within bounds can do. *)
Lemma normalize_path_outcome in_path in_len base base_len w :
  in_len ≤ length in_path → base_in_bounds base base_len →
  let raw := base_prefix base base_len ++ take in_len in_path in
  ∃ res w', jerry_port_normalize_path in_path in_len base base_len w = Ok res w' ∧
    only_malloc w w' ∧
    p_oom (w_platform w') = tail (p_oom (w_platform w)) ∧
    (head (p_oom (w_platform w)) = Some true → res = None) ∧
    (head (p_oom (w_platform w)) ≠ Some true →
     res = Some (default raw (p_realpath (w_platform w) (cstr raw)))).
Proof.
  intros Hil Hbase raw.
  destruct (malloc_outcome w) as (ok & w1 & Hmalloc & Hframe & Hok & Hoom).
  pose proof Hframe as (_ & _ & _ & _ & _ & Hrp).
  unfold jerry_port_normalize_path, memcpy, realpath.
  rewrite (decide_True (P := in_len ≤ S (length in_path))) by lia.
  rewrite take_app_le by assumption.
  destruct (decide (0 < base_len)) as [Hpos|Hzero].
  - destruct Hbase as [->|(b & -> & Hbl)]; [lia|].
    rewrite (decide_True (P := base_len ≤ S (length b))) by lia.
    rewrite take_app_le by assumption.
    unfold mbind, M_bind. rewrite Hmalloc. destruct ok; cbn [negb]; unfold mret, M_ret, get.
    + fold (base_prefix (Some b) base_len). fold raw. rewrite Hrp.
      destruct (p_realpath _ _) eqn:E; eexists _, w1;
        (split; [reflexivity|]; split; [exact Hframe|]; split; [exact Hoom|]);
        (split; [intros H; apply Hok in H; discriminate | intros _; reflexivity]).
    + eexists None, w1. split; [reflexivity|]. split; [exact Hframe|]. split; [exact Hoom|].
      split; [reflexivity | intros H; exfalso; apply H; by apply Hok].
  - assert (base_len = 0) as -> by lia.
    assert (Hraw : raw = take in_len in_path).
    { unfold raw, base_prefix. destruct base; reflexivity. }
    unfold mbind, M_bind. rewrite Hmalloc. destruct ok; cbn [negb]; unfold mret, M_ret, get.
    + rewrite Hraw, Hrp.
      destruct (p_realpath _ _) eqn:E; eexists _, w1;
        (split; [reflexivity|]; split; [exact Hframe|]; split; [exact Hoom|]);
        (split; [intros H; apply Hok in H; discriminate | intros _; reflexivity]).
    + eexists None, w1. split; [reflexivity|]. split; [exact Hframe|]. split; [exact Hoom|].
      split; [reflexivity | intros H; exfalso; apply H; by apply Hok].
Qed.

(** X3. With a base length of 0, [jerry_port_normalize_path] does not look at
    the base path, NULL or not: it returns the canonical form of the first
    [in_path_length] bytes of the input path, or these bytes themselves when
    [realpath] has no answer. *)
Theorem normalize_path_without_base in_path in_len base w :
  in_len ≤ length in_path → malloc_ok w →
  let raw := take in_len in_path in
  ∃ w', jerry_port_normalize_path in_path in_len base 0 w =
          Ok (Some (default raw (p_realpath (w_platform w) (cstr raw)))) w'.
Proof.
  intros Hil Hok raw.
  destruct (normalize_path_outcome in_path in_len base 0 w Hil (or_introl eq_refl))
    as (res & w' & Hnorm & _ & _ & _ & Hres).
  exists w'. rewrite Hnorm, (Hres Hok). unfold base_prefix.
  destruct base; rewrite ?take_0; reflexivity.
Qed.

Lemma normalize_path_without_base_witness :
  ∃ w', jerry_port_normalize_path (bytes "/proj/lib.js") 12 None 0 example_world =
          Ok (Some (bytes "/proj/lib.js")) w'.
Proof.
  apply (normalize_path_without_base (bytes "/proj/lib.js") 12 None example_world).
  - vm_compute. lia.
  - vm_compute. discriminate.
Defined.

(** X4. [jerry_port_normalize_path] returns NULL exactly when its allocation
    fails: a path that [realpath] cannot resolve is returned as it was built,
    not reported.  The call changes nothing but the state of the
    allocator. *)
Theorem normalize_path_null_iff_out_of_memory in_path in_len base base_len w :
  in_len ≤ length in_path → base_in_bounds base base_len →
  ∃ res w', jerry_port_normalize_path in_path in_len base base_len w = Ok res w' ∧
    (res = None ↔ head (p_oom (w_platform w)) = Some true) ∧
    only_malloc w w'.
Proof.
  intros Hil Hbase.
  destruct (normalize_path_outcome in_path in_len base base_len w Hil Hbase)
    as (res & w' & Hnorm & Hframe & _ & Hnone & Hsome).
  exists res, w'. split; [exact Hnorm|]. split; [|exact Hframe]. split.
  - intros ->. destruct (decide (head (p_oom (w_platform w)) = Some true)) as [|Hne];
      [assumption|]. specialize (Hsome Hne). discriminate.
  - exact Hnone.
Qed.

Lemma normalize_path_null_witness :
  ∃ res w', jerry_port_normalize_path (bytes "lib.js") 6 (Some (bytes "/proj/lib.js")) 6
              oom_world = Ok res w' ∧
    (res = None ↔ head (p_oom (w_platform oom_world)) = Some true).
Proof.
  destruct (normalize_path_null_iff_out_of_memory (bytes "lib.js") 6
              (Some (bytes "/proj/lib.js")) 6 oom_world) as (res & w' & H & Hiff & _).
  - vm_compute. lia.
  - right. exists (bytes "/proj/lib.js"). split; [reflexivity|]. vm_compute. lia.
  - eauto.
Defined.

(** ** More on the directory end *)

Lemma strlen_app_no_nul a b : x00 ∉ a → strlen (a ++ b) = length a + strlen b.
Proof.
  induction a as [|c a IH]; [reflexivity|].
  rewrite not_elem_of_cons. intros [Hc Ha]. simpl.
  rewrite bool_decide_false by congruence. rewrite IH; auto.
Qed.

Lemma char_at_app_l a b i : i < length a → char_at (a ++ b) i = char_at a i.
Proof. intros H. unfold char_at. by apply app_nth1. Qed.

Lemma char_at_app_r a b i : length a ≤ i → char_at (a ++ b) i = char_at b (i - length a).
Proof. intros H. unfold char_at. by apply app_nth2. Qed.

Lemma char_at_in_cstr s i : i < strlen s → char_at s i = SEP → SEP ∈ cstr s.
Proof.
  intros Hi Hc. apply char_at_lookup in Hc; [|discriminate].
  apply list_elem_of_lookup. exists i. by rewrite cstr_lookup.
Qed.

Lemma directory_end_no_separator path :
  SEP ∉ cstr path → jerry_port_get_directory_end path = 0.
Proof.
  intros Hsep. unfold jerry_port_get_directory_end.
  destruct (jerry_port_get_directory_end_loop path (strlen path)) as [|i] eqn:E;
    [reflexivity|].
  apply directory_end_loop_succ in E as (Hi & Hc & _).
  exfalso. apply Hsep. by apply (char_at_in_cstr path i).
Qed.

Lemma directory_end_join dir name :
  x00 ∉ dir → SEP ∉ cstr name → dir = [] ∨ list.last dir = Some SEP →
  jerry_port_get_directory_end (dir ++ name) = length dir.
Proof.
  intros Hnul Hsep [->|Hlast].
  - simpl. by apply directory_end_no_separator.
  - apply last_Some in Hlast as (d & ->).
    unfold jerry_port_get_directory_end. rewrite strlen_app_no_nul by assumption.
    rewrite length_app. simpl. replace (length d + 1) with (S (length d)) by lia.
    apply directory_end_loop_last.
    + lia.
    + rewrite <- app_assoc. rewrite char_at_app_r by lia.
      rewrite Nat.sub_diag. reflexivity.
    + intros j Hj Hc. apply Hsep.
      rewrite char_at_app_r in Hc by (rewrite length_app; simpl; lia).
      rewrite length_app in Hc. simpl in Hc.
      apply (char_at_in_cstr name (j - (length d + 1))); [lia | assumption].
Qed.

(** X5. When a directory prefix that is empty or ends with a separator is
    joined with a file name that holds no separator, the directory end of
    the joined path is the length of the prefix: cutting the path there gives
    the prefix back. *)
Theorem directory_end_of_joined_path dir name :
  x00 ∉ dir → SEP ∉ cstr name → dir = [] ∨ list.last dir = Some SEP →
  jerry_port_get_directory_end (dir ++ name) = length dir ∧
  take (jerry_port_get_directory_end (dir ++ name)) (dir ++ name) = dir.
Proof.
  intros Hnul Hsep Hdir.
  pose proof (directory_end_join dir name Hnul Hsep Hdir) as Hend.
  split; [exact Hend|]. rewrite Hend. by rewrite take_app_length.
Qed.

Lemma directory_end_join_witness :
  jerry_port_get_directory_end (bytes "/proj/" ++ bytes "lib.js") = 6 ∧
  take (jerry_port_get_directory_end (bytes "/proj/" ++ bytes "lib.js"))
    (bytes "/proj/" ++ bytes "lib.js") = bytes "/proj/".
Proof.
  apply (directory_end_of_joined_path (bytes "/proj/") (bytes "lib.js")).
  - vm_compute. intros H.
    repeat (apply elem_of_cons in H as [H|H]; [discriminate|]). by apply elem_of_nil in H.
  - vm_compute. intros H.
    repeat (apply elem_of_cons in H as [H|H]; [discriminate|]). by apply elem_of_nil in H.
  - right. reflexivity.
Defined.

(** X6. Taking the directory end is idempotent: the directory part of a path
    is its own directory part. *)
Theorem directory_end_of_directory path :
  jerry_port_get_directory_end (take (jerry_port_get_directory_end path) path) =
  jerry_port_get_directory_end path.
Proof.
  pose proof (directory_end_loop_le path (strlen path)) as Hle.
  pose proof (strlen_le path) as Hlen.
  fold (jerry_port_get_directory_end path) in Hle.
  set (d := jerry_port_get_directory_end path) in *.
  assert (Hnul : x00 ∉ take d path).
  { intros Hin. apply (cstr_no_nul path). unfold cstr.
    replace (take d path) with (take d (take (strlen path) path)) in Hin
      by (rewrite take_take; f_equal; lia).
    apply list_elem_of_lookup in Hin as (i & Hi).
    apply list_elem_of_lookup. exists i.
    apply lookup_take_Some in Hi as [Hi _]. exact Hi. }
  assert (Hdir : take d path = [] ∨ list.last (take d path) = Some SEP).
  { unfold d, jerry_port_get_directory_end.
    destruct (jerry_port_get_directory_end_loop path (strlen path)) as [|i] eqn:E;
      [by left|right].
    apply directory_end_loop_succ in E as (Hi & Hc & _).
    apply char_at_lookup in Hc; [|discriminate].
    erewrite take_S_r by exact Hc. apply last_snoc. }
  pose proof (directory_end_join (take d path) [] Hnul (not_elem_of_nil _) Hdir) as Hend.
  rewrite app_nil_r in Hend. rewrite Hend, length_take. lia.
Qed.

(** ** All that the resolver can do *)

(** All that the first part of the resolver can do when the referrer is live
    and the buffer of the specifier is allocated. *)
Lemma resolve_path_outcome s r w :
  live_referrer w r → malloc_ok w →
  let in_path := string_bytes (w_engine w) s in
  let raw := referrer_base w r ++ in_path in
  ∃ res w1, jerry_port_module_resolve_path s r w = Ok (in_path, res) w1 ∧
    only_malloc w w1 ∧
    p_oom (w_platform w1) = tail (tail (p_oom (w_platform w))) ∧
    (head (tail (p_oom (w_platform w))) = Some true → res = None) ∧
    (head (tail (p_oom (w_platform w))) ≠ Some true →
     res = Some (default raw (p_realpath (w_platform w) (cstr raw)))).
Proof.
  intros Hlive Hok in_path raw.
  destruct (malloc_ok_eq w Hok) as (w1 & Hmalloc & Hframe1 & Hoom1).
  pose proof Hframe1 as (He1 & _ & _ & _ & _ & Hrp1).
  assert (Hbase : ∃ base base_len,
    (match referrer_record w r with
     | Some p => m ← load p; mret (Some (path_p m), base_path_length m)
     | None => mret (None, 0)
     end : M (option (list jerry_char_t) * nat)) w = Ok (base, base_len) w ∧
    base_in_bounds base base_len ∧ base_prefix base base_len = referrer_base w r).
  { unfold live_referrer, referrer_base in *.
    destruct (referrer_record w r) as [a|].
    - destruct Hlive as (m & Hm & Hlen). rewrite Hm.
      exists (Some (path_p m)), (base_path_length m).
      split; [bind_step (load_Ok _ _ _ Hm); reflexivity|].
      split; [right; eauto | reflexivity].
    - exists None, 0. split; [reflexivity|]. split; [by left | reflexivity]. }
  destruct Hbase as (base & base_len & Hload & Hbounds & Hprefix).
  destruct (normalize_path_outcome in_path (length in_path) base base_len w1
              (le_n _) Hbounds) as (res & w2 & Hnorm & Hframe2 & Hoom2 & Hnone & Hsome).
  rewrite firstn_all, Hprefix, Hoom1, Hrp1 in *. fold raw in Hsome.
  exists res, w2. split.
  { unfold jerry_port_module_resolve_path.
    bind_step (jerry_object_get_native_ptr_eq _ _).
    fold (referrer_record w r). bind_step Hload.
    bind_step (jerry_string_size_eq _ _).
    bind_step Hmalloc. cbn [negb].
    bind_step (jerry_string_to_buffer_eq _ _ _).
    rewrite He1. fold in_path. rewrite firstn_all.
    bind_step Hnorm. reflexivity. }
  split; [by apply (only_malloc_trans _ w1)|]. auto.
Qed.

Lemma malloc_module_outcome w :
  malloc_ok w →
  ∃ w', malloc_module w = Ok (Some (fresh (dom (w_heap w)))) w' ∧ only_malloc w w' ∧
    p_oom (w_platform w') = tail (p_oom (w_platform w)).
Proof.
  intros Hok. destruct (malloc_ok_eq w Hok) as (w' & Hmalloc & Hframe & Hoom).
  exists w'. unfold malloc_module. bind_step Hmalloc.
  destruct Hframe as (He & Hh & Hrest). rewrite <- Hh.
  split; [reflexivity|]. split; [by split|assumption].
Qed.

Lemma malloc_module_null w :
  head (p_oom (w_platform w)) = Some true → ∃ w', malloc_module w = Ok None w'.
Proof.
  intros Hoom. destruct (malloc_fails w Hoom) as (w' & Hmalloc).
  exists w'. unfold malloc_module. bind_step Hmalloc. reflexivity.
Qed.

Lemma drop_add_ref v c x : drop_ref v (add_ref v c) x = c x.
Proof.
  unfold drop_ref, add_ref. destruct (decide (x = v)) as [->|Hne].
  - rewrite !fn_lookup_insert. reflexivity.
  - rewrite !fn_lookup_insert_ne by congruence. reflexivity.
Qed.

Lemma drop_ref_ext v (c c' : jerry_value_t → nat) :
  (∀ x, c x = c' x) → ∀ x, drop_ref v c x = drop_ref v c' x.
Proof.
  intros Hc x. unfold drop_ref. destruct (decide (x = v)) as [->|Hne].
  - rewrite !fn_lookup_insert, Hc. reflexivity.
  - rewrite !fn_lookup_insert_ne by congruence. apply Hc.
Qed.

Lemma set_native_ptr_outcome v p w :
  ∃ w', jerry_object_set_native_ptr v p w = Ok tt w' ∧
    e_native (w_engine w') = attach v p (e_native (w_engine w)) ∧
    e_refs (w_engine w') = e_refs (w_engine w) ∧
    w_heap w' = w_heap w ∧ w_manager w' = w_manager w ∧ w_trace w' = w_trace w ∧
    w_platform w' = w_platform w.
Proof. destruct v; eexists; by repeat split. Qed.

(** All that the last part of the resolver can do. *)
Lemma resolve_load_outcome in_path path realm_v w :
  ∃ src w3, jerry_port_read_source path w = Ok src w3 ∧
    match src with
    | None =>
        ∃ ref w', jerry_port_module_resolve_load in_path path realm_v w =
                    Ok (jerry_exception_value ref) w' ∧
          e_errors (w_engine w') !! ref = Some (JERRY_ERROR_SYNTAX, "Module file not found") ∧
          w_heap w' = w_heap w ∧ w_manager w' = w_manager w ∧ w_trace w' = w_trace w3 ∧
          e_native (w_engine w') = e_native (w_engine w) ∧
          (∀ x, e_refs (w_engine w') x =
                add_ref (jerry_exception_value ref) (drop_ref realm_v (e_refs (w_engine w))) x)
    | Some source =>
        let ret := e_parse (w_engine w) source in_path in
        if jerry_value_is_exception ret then
          ∃ w', jerry_port_module_resolve_load in_path path realm_v w = Ok ret w' ∧
            w_heap w' = w_heap w ∧ w_manager w' = w_manager w ∧
            w_trace w' = w_trace w3 ++ [ev_parse source in_path] ∧
            e_native (w_engine w') = e_native (w_engine w) ∧
            (∀ x, e_refs (w_engine w') x = drop_ref realm_v (e_refs (w_engine w)) x)
        else if bool_decide (head (p_oom (w_platform w3)) = Some true) then
          jerry_port_module_resolve_load in_path path realm_v w = Crash
        else
          ∃ w', jerry_port_module_resolve_load in_path path realm_v w = Ok ret w' ∧
            w_heap w' =
              <[fresh (dom (w_heap w)) :=
                  {| next_p := module_head_p (w_manager w); path_p := path;
                     base_path_length := jerry_port_get_directory_end path;
                     realm := realm_v; module := ret |}]> (w_heap w) ∧
            w_manager w' = {| module_head_p := Some (fresh (dom (w_heap w))) |} ∧
            w_trace w' = w_trace w3 ++ [ev_parse source in_path] ∧
            e_native (w_engine w') = attach ret (fresh (dom (w_heap w))) (e_native (w_engine w)) ∧
            (∀ x, e_refs (w_engine w') x = add_ref ret (e_refs (w_engine w)) x) ∧
            p_oom (w_platform w') = tail (p_oom (w_platform w3))
    end.
Proof.
  destruct (read_source_outcome path w) as (src & w3 & Hread & He & Hh & Hm & _ & _ & _).
  exists src, w3. split; [assumption|].
  unfold jerry_port_module_resolve_load. bind_step Hread.
  destruct src as [source|].
  - cbn zeta. bind_step (jerry_string_eq _ _).
    bind_step (jerry_parse_eq _ _ _).
    rewrite string_bytes_new.
    rewrite (bind_Ok _ _ _ _ _ (jerry_value_free_eq _ _)).
    replace (e_parse (w_engine (new_string in_path w3))) with (e_parse (w_engine w))
      by (rewrite <- He; reflexivity).
    destruct (jerry_value_is_exception (e_parse (w_engine w) source in_path)).
    + eexists. rewrite (bind_Ok _ _ _ _ _ (jerry_value_free_eq _ _)).
      split; [reflexivity|]. simpl. rewrite He.
      split; [assumption|]. split; [assumption|]. split; [reflexivity|]. split; [reflexivity|].
      intros x. apply drop_ref_ext. intros y. rewrite <- He.
      exact (drop_add_ref _ (e_refs (w_engine w3)) y).
    + match goal with |- context [(malloc_module ≫= _) ?w0] => set (w4 := w0) end.
      assert (Hoom4 : p_oom (w_platform w4) = p_oom (w_platform w3)) by reflexivity.
      case_bool_decide as Hoom.
      * destruct (malloc_module_null w4) as (w5 & Hmalloc); [by rewrite Hoom4|].
        rewrite (bind_Ok _ _ _ _ _ Hmalloc). reflexivity.
      * destruct (malloc_module_outcome w4) as (w5 & Hmalloc & Hframe5 & Hoom5);
          [unfold malloc_ok; by rewrite Hoom4|].
        destruct Hframe5 as (He5 & Hh5 & Hm5 & Htr5 & _).
        rewrite (bind_Ok _ _ _ _ _ Hmalloc). cbn beta iota.
        bind_step (jerry_context_data_eq _).
        bind_step (jerry_value_copy_eq _ _).
        unfold modify at 1. unfold mbind at 1. unfold M_bind at 1. cbn beta iota.
        assert (Hh4 : w_heap w4 = w_heap w) by (rewrite <- Hh; reflexivity).
        assert (Hm4 : w_manager w4 = w_manager w) by (rewrite <- Hm; reflexivity).
        assert (Hn4 : e_native (w_engine w4) = e_native (w_engine w))
          by (rewrite <- He; reflexivity).
        assert (Hr4 : ∀ x, e_refs (w_engine w4) x = e_refs (w_engine w) x).
        { intros x. rewrite <- He. subst w4. cbn.
          exact (drop_add_ref _ (e_refs (w_engine w3)) x). }
        rewrite Hh4, Hm5, Hm4.
        match goal with |- context [(jerry_object_set_native_ptr ?v ?p ≫= _) ?w0] =>
          destruct (set_native_ptr_outcome v p w0)
            as (w6 & Hset & Hn6 & Hr6 & Hh6 & Hm6 & Htr6 & Hp6) end.
        rewrite (bind_Ok _ _ _ _ _ Hset). eexists. split; [reflexivity|].
        cbn. rewrite Hh6, Hn6, Htr6, Hp6, Hr6. cbn.
        rewrite Hh5, Hh4, He5, Hn4, Htr5, Hoom5.
        split; [reflexivity|]. split; [reflexivity|]. split; [reflexivity|].
        split; [reflexivity|]. split; [|reflexivity].
        intros x. unfold add_ref.
        destruct (decide (x = e_parse (w_engine w) source in_path)) as [->|Hne].
        -- rewrite !fn_lookup_insert, Hr4. reflexivity.
        -- rewrite !fn_lookup_insert_ne, Hr4 by congruence. reflexivity.
  - rewrite (bind_Ok _ _ _ _ _ (jerry_value_free_eq _ _)).
    destruct (jerry_throw_sz_eq JERRY_ERROR_SYNTAX "Module file not found"
                (with_engine (set_refs (drop_ref realm_v)) w3))
      as (w' & Hw' & Herr & Hh' & Hm' & Htr' & _).
    eexists _, w'. split; [exact Hw'|]. split; [exact Herr|]. simpl in Hh', Hm', Htr'.
    split; [congruence|]. split; [congruence|]. split; [congruence|].
    unfold jerry_throw_sz, jerry_value_copy, modify, get, mbind, M_bind, mret, M_ret in Hw'.
    injection Hw' as <-. cbn. rewrite He. split; reflexivity.
Qed.

Lemma mallocs_ok_head n k (oom : list bool) :
  true ∉ take n oom → k < n → head (drop k oom) ≠ Some true.
Proof.
  intros Hok Hk Hhead. apply Hok. apply (list_elem_of_lookup_2 _ k).
  rewrite head_lookup, lookup_drop, Nat.add_0_r in Hhead.
  rewrite lookup_take_lt by assumption. exact Hhead.
Qed.

Lemma mallocs_ok_le n m w : n ≤ m → mallocs_ok m w → mallocs_ok n w.
Proof.
  unfold mallocs_ok. intros Hle Hok Hin. apply Hok.
  apply elem_of_take in Hin as (i & Hi & Hlt). apply elem_of_take. exists i. split; [auto | lia].
Qed.

Lemma tail_drop {A} (l : list A) k : tail (drop k l) = drop (S k) l.
Proof.
  revert l. induction k as [|k IH]; intros [|x l]; try reflexivity.
  exact (IH l).
Qed.

(** A call that reaches the last part of the resolver: the world in which it
    reads the file. *)
Lemma resolve_reaches_load s r w l :
  cache_is w l → live_referrer w r → mallocs_ok 2 w →
  cache_miss w l (resolved_path w s r) →
  ∃ w2, jerry_port_module_resolve s r w =
          jerry_port_module_resolve_load (string_bytes (w_engine w) s) (resolved_path w s r)
            (e_realm (w_engine w)) w2 ∧
    w_heap w2 = w_heap w ∧ w_manager w2 = w_manager w ∧ w_trace w2 = w_trace w ∧
    p_fs (w_platform w2) = p_fs (w_platform w) ∧
    p_oom (w_platform w2) = drop 2 (p_oom (w_platform w)) ∧
    e_native (w_engine w2) = e_native (w_engine w) ∧
    e_parse (w_engine w2) = e_parse (w_engine w) ∧
    e_refs (w_engine w2) = add_ref (e_realm (w_engine w)) (e_refs (w_engine w)).
Proof.
  intros Hl Hlive Hok Hmiss.
  destruct (resolve_path_outcome s r w Hlive) as (res & w1 & Hpath & Hframe & Hoom & _ & Hsome).
  { exact (mallocs_ok_head 2 0 _ Hok ltac:(lia)). }
  rewrite (Hsome ltac:(rewrite <- (drop_0 (p_oom _)), tail_drop;
                       exact (mallocs_ok_head 2 1 _ Hok ltac:(lia)))) in Hpath.
  fold (resolved_path w s r) in Hpath.
  destruct Hframe as (He & Hh & Hm & Htr & Hfs & Hrp).
  exists (enter_realm w1).
  rewrite (resolve_after_path _ _ _ _ _ _ _ Hpath Hl).
  apply find_matches_None in Hmiss. rewrite Hmiss.
  split; [reflexivity|]. cbn. rewrite He, Hoom.
  rewrite <- (drop_0 (p_oom (w_platform w))) at 1. rewrite !tail_drop. auto 10.
Qed.

(** A call that finds its record. *)
Lemma resolve_reaches_hit s r w l e :
  cache_is w l → live_referrer w r → mallocs_ok 2 w →
  find (matches (e_realm (w_engine w)) (resolved_path w s r)) l = Some e →
  ∃ w', jerry_port_module_resolve s r w = Ok (r_module e.2) w' ∧
    w_trace w' = w_trace w ∧ w_heap w' = w_heap w ∧ w_manager w' = w_manager w.
Proof.
  intros Hl Hlive Hok Hfind.
  destruct (resolve_path_outcome s r w Hlive) as (res & w1 & Hpath & Hframe & Hoom & _ & Hsome).
  { exact (mallocs_ok_head 2 0 _ Hok ltac:(lia)). }
  rewrite (Hsome ltac:(rewrite <- (drop_0 (p_oom _)), tail_drop;
                       exact (mallocs_ok_head 2 1 _ Hok ltac:(lia)))) in Hpath.
  fold (resolved_path w s r) in Hpath.
  destruct (resolve_hit _ _ _ _ _ _ _ _ Hl Hpath Hfind) as (w' & Hres & Htr & Hh & Hm & _).
  eauto.
Qed.

(** The file read in the world of [resolve_reaches_load]. *)
Lemma regular_file_same w w2 path f :
  p_fs (w_platform w2) = p_fs (w_platform w) → regular_file w path f → regular_file w2 path f.
Proof. unfold regular_file. intros ->. auto. Qed.

(** A first resolution that succeeds: all that it leaves. *)
Lemma resolve_success s r w l f :
  cache_is w l → live_referrer w r → mallocs_ok 4 w →
  cache_miss w l (resolved_path w s r) →
  regular_file w (resolved_path w s r) f → length (f_data f) ≤ f_fread f →
  jerry_value_is_exception (e_parse (w_engine w) (f_data f) (string_bytes (w_engine w) s))
    = false →
  let path := resolved_path w s r in
  let ret := e_parse (w_engine w) (f_data f) (string_bytes (w_engine w) s) in
  let a := fresh (dom (w_heap w)) in
  ∃ w', jerry_port_module_resolve s r w = Ok ret w' ∧
    w_heap w' = <[a := {| next_p := module_head_p (w_manager w); path_p := path;
                          base_path_length := jerry_port_get_directory_end path;
                          realm := e_realm (w_engine w); module := ret |}]> (w_heap w) ∧
    w_manager w' = {| module_head_p := Some a |} ∧
    w_trace w' = w_trace w ++ [ev_read_source (cstr path);
                               ev_parse (f_data f) (string_bytes (w_engine w) s)] ∧
    e_native (w_engine w') = attach ret a (e_native (w_engine w)) ∧
    (∀ x, e_refs (w_engine w') x =
          add_ref ret (add_ref (e_realm (w_engine w)) (e_refs (w_engine w))) x).
Proof.
  intros Hl Hlive Hok Hmiss Hfile Hfread Hexc path ret a.
  assert (Hok2 : mallocs_ok 2 w).
  { apply (mallocs_ok_le 2 4); [lia | assumption]. }
  destruct (resolve_reaches_load s r w l Hl Hlive Hok2 Hmiss)
    as (w2 & Hres & Hh2 & Hm2 & Htr2 & Hfs2 & Hoom2 & Hn2 & Hp2 & Hr2).
  fold path in Hres, Hfile.
  destruct (resolve_load_outcome (string_bytes (w_engine w) s) path (e_realm (w_engine w)) w2)
    as (src & w3 & Hread & Hload).
  destruct (read_source_outcome path w2) as (src' & w3' & Hread' & _ & _ & _ & _ & _ & Hsrc).
  rewrite Hread in Hread'. injection Hread' as <- <-.
  assert (Hok3 : malloc_ok w2).
  { unfold malloc_ok. rewrite Hoom2. exact (mallocs_ok_head 4 2 _ Hok ltac:(lia)). }
  destruct src as [source|].
  - destruct Hsrc as (f' & (Hf' & _) & _ & _ & -> & Htr3 & Hoom3).
    rewrite Hfs2 in Hf'. destruct Hfile as (Hf & _). rewrite Hf in Hf'. injection Hf' as <-.
    cbn zeta in Hload. rewrite Hp2 in Hload. fold ret in Hload, Hexc. rewrite Hexc in Hload.
    rewrite bool_decide_false in Hload.
    2:{ rewrite Hoom3, Hoom2, tail_drop. exact (mallocs_ok_head 4 3 _ Hok ltac:(lia)). }
    destruct Hload as (w' & Hload & Hh' & Hm' & Htr' & Hn' & Hr' & _).
    exists w'. rewrite Hres. split; [exact Hload|].
    rewrite Hh', Hm', Htr', Htr3, Hn', Hh2, Hm2, Htr2, Hn2. fold a.
    split; [reflexivity|]. split; [reflexivity|].
    split; [by rewrite <- app_assoc|]. split; [reflexivity|].
    intros x. rewrite Hr', Hr2. reflexivity.
  - exfalso. destruct Hsrc as (_ & [(Hun & _)|(f' & (Hf' & _) & Hbad & _)]).
    + unfold unreadable in Hun. rewrite Hfs2 in Hun.
      destruct Hfile as (Hf & Hdir & Hopen). rewrite Hf in Hun.
      destruct Hun; congruence.
    + rewrite Hfs2 in Hf'. destruct Hfile as (Hf & _). rewrite Hf in Hf'. injection Hf' as <-.
      destruct Hbad as [Hbad|Hbad]; [by apply Hok3 | lia].
Qed.

(** ** First resolutions *)

Lemma cache_is_fresh w l : cache_is w l → fresh (dom (w_heap w)) ∉ l.*1.
Proof.
  intros Hl Hin. apply (is_fresh (dom (w_heap w))). exact (lseg_allocated _ _ _ _ _ Hl Hin).
Qed.

(** X7. A first resolution that succeeds (no record for the realm and the
    path, a live referrer, a file that is read whole, a parser that accepts
    it, no allocation failure) returns the parsed module, links one record
    for it at the head of the list at an address that was free, leaves every
    other cell of the heap alone, and attaches the address of the record to
    the module object as its native pointer, and to no other object. *)
Theorem resolve_links_record_at_head s r w l f :
  let path := resolved_path w s r in
  let ret := e_parse (w_engine w) (f_data f) (string_bytes (w_engine w) s) in
  cache_is w l → live_referrer w r → mallocs_ok 4 w →
  cache_miss w l path → regular_file w path f → length (f_data f) ≤ f_fread f →
  jerry_value_is_exception ret = false →
  ∃ a w', jerry_port_module_resolve s r w = Ok ret w' ∧
    w_heap w !! a = None ∧
    cache_is w' ((a, {| r_path := path; r_base := jerry_port_get_directory_end path;
                        r_realm := e_realm (w_engine w); r_module := ret |}) :: l) ∧
    (∀ b, b ≠ a → w_heap w' !! b = w_heap w !! b) ∧
    e_native (w_engine w') = attach ret a (e_native (w_engine w)).
Proof.
  intros path ret Hl Hlive Hok Hmiss Hfile Hfread Hexc.
  destruct (resolve_success s r w l f Hl Hlive Hok Hmiss Hfile Hfread Hexc)
    as (w' & Hres & Hh & Hm & _ & Hn & _).
  exists (fresh (dom (w_heap w))), w'. split; [exact Hres|].
  split; [apply not_elem_of_dom, is_fresh|].
  split; [|split; [|exact Hn]].
  - unfold cache_is. rewrite Hh, Hm. simpl. split; [reflexivity|].
    eexists. rewrite lookup_insert_eq. split; [reflexivity|]. split; [reflexivity|]. simpl.
    apply lseg_insert_frame; [by apply cache_is_fresh | exact Hl].
  - intros b Hb. rewrite Hh. by apply lookup_insert_ne.
Qed.

Lemma resolve_links_record_witness :
  ∃ a w', jerry_port_module_resolve (jerry_string_value 1) jerry_undefined_value
            two_realms_world = Ok example_module w' ∧
    w_heap two_realms_world !! a = None ∧
    cache_is w' ((a, {| r_path := bytes "/proj/lib.js"; r_base := 6;
                        r_realm := example_realm; r_module := example_module |})
                 :: two_realms_cache).
Proof.
  destruct (resolve_links_record_at_head (jerry_string_value 1) jerry_undefined_value
              two_realms_world two_realms_cache example_file)
    as (a & w' & Hres & Ha & Hl & _).
  - exact two_realms_cache_is.
  - exact I.
  - unfold mallocs_ok. simpl. apply not_elem_of_nil.
  - apply (bool_decide_unpack _). vm_compute. exact I.
  - split; [vm_compute; reflexivity|]. split; reflexivity.
  - vm_compute. lia.
  - reflexivity.
  - exists a, w'. split; [exact Hres|]. split; [exact Ha | exact Hl].
Defined.

(** X8. A first resolution that succeeds calls [jerry_port_read_source] once,
    on the path it has built, and then [jerry_parse] once, on the content of
    the file; the source name given to the parser is the specifier as it was
    written, not the path. *)
Theorem resolve_reads_and_parses_once s r w l f :
  let path := resolved_path w s r in
  let ret := e_parse (w_engine w) (f_data f) (string_bytes (w_engine w) s) in
  cache_is w l → live_referrer w r → mallocs_ok 4 w →
  cache_miss w l path → regular_file w path f → length (f_data f) ≤ f_fread f →
  jerry_value_is_exception ret = false →
  ∃ w', jerry_port_module_resolve s r w = Ok ret w' ∧
    w_trace w' = w_trace w ++ [ev_read_source (cstr path);
                               ev_parse (f_data f) (string_bytes (w_engine w) s)].
Proof.
  intros path ret Hl Hlive Hok Hmiss Hfile Hfread Hexc.
  destruct (resolve_success s r w l f Hl Hlive Hok Hmiss Hfile Hfread Hexc)
    as (w' & Hres & _ & _ & Htr & _).
  eauto.
Qed.

Lemma loaded_cache_is : cache_is loaded_world loaded_cache.
Proof.
  unfold cache_is, loaded_cache. simpl. split; [vm_compute; reflexivity|].
  eexists. split; [vm_compute; reflexivity|]. split; reflexivity.
Defined.

Lemma guest_cache_is : cache_is guest_world loaded_cache.
Proof. exact loaded_cache_is. Defined.

Lemma loaded_cache_inv : cache_inv loaded_world loaded_cache.
Proof.
  split; [exact loaded_cache_is|]. split.
  - apply (bool_decide_unpack _). vm_compute. exact I.
  - repeat constructor.
Defined.

Lemma guest_referrer_live : live_referrer guest_world example_module.
Proof.
  unfold live_referrer.
  assert (Hrec : referrer_record guest_world example_module = Some 1%positive)
    by (vm_compute; reflexivity).
  rewrite Hrec. eexists. split; [vm_compute; reflexivity|]. vm_compute. lia.
Defined.

Lemma resolve_reads_and_parses_witness :
  ∃ w', jerry_port_module_resolve (jerry_string_value 4) example_module guest_world =
          Ok example_module w' ∧
    w_trace w' = w_trace guest_world ++
                 [ev_read_source (bytes "/proj/lib.js");
                  ev_parse (bytes "export let x = 1;") (bytes "lib.js")].
Proof.
  destruct (resolve_reads_and_parses_once (jerry_string_value 4) example_module
              guest_world loaded_cache example_file) as (w' & Hres & Htr).
  - exact guest_cache_is.
  - exact guest_referrer_live.
  - unfold mallocs_ok. simpl. apply not_elem_of_nil.
  - apply (bool_decide_unpack _). vm_compute. exact I.
  - split; [vm_compute; reflexivity|]. split; reflexivity.
  - vm_compute. lia.
  - reflexivity.
  - exists w'. split; [exact Hres|]. exact Htr.
Defined.

(** X9. A first resolution that succeeds takes two references that it keeps
    in the new record, one on the realm and one on the module; the reference
    on the source name is given back, and no other count changes. *)
Theorem resolve_takes_two_references s r w l f :
  let path := resolved_path w s r in
  let ret := e_parse (w_engine w) (f_data f) (string_bytes (w_engine w) s) in
  cache_is w l → live_referrer w r → mallocs_ok 4 w →
  cache_miss w l path → regular_file w path f → length (f_data f) ≤ f_fread f →
  jerry_value_is_exception ret = false →
  ∃ w', jerry_port_module_resolve s r w = Ok ret w' ∧
    ∀ x, e_refs (w_engine w') x =
         add_ref ret (add_ref (e_realm (w_engine w)) (e_refs (w_engine w))) x.
Proof.
  intros path ret Hl Hlive Hok Hmiss Hfile Hfread Hexc.
  destruct (resolve_success s r w l f Hl Hlive Hok Hmiss Hfile Hfread Hexc)
    as (w' & Hres & _ & _ & _ & _ & Hrefs).
  eauto.
Qed.

Lemma resolve_takes_two_references_witness :
  ∃ w', jerry_port_module_resolve (jerry_string_value 1) jerry_undefined_value
          example_world = Ok example_module w' ∧
    e_refs (w_engine w') example_module = 2 ∧ e_refs (w_engine w') example_realm = 2 ∧
    e_refs (w_engine w') other_realm = 1.
Proof.
  destruct (resolve_takes_two_references (jerry_string_value 1) jerry_undefined_value
              example_world [] example_file) as (w' & Hres & Hrefs).
  - reflexivity.
  - exact I.
  - unfold mallocs_ok. simpl. apply not_elem_of_nil.
  - apply not_elem_of_nil.
  - split; [vm_compute; reflexivity|]. split; reflexivity.
  - vm_compute. lia.
  - reflexivity.
  - exists w'. split; [exact Hres|]. rewrite !Hrefs. split; [|split]; reflexivity.
Defined.

(** A referrer that carries a record of the cache is live, and its base is
    the directory of the path of the record. *)
Lemma cached_referrer w l a rec r :
  cache_inv w l → (a, rec) ∈ l → referrer_record w r = Some a →
  live_referrer w r ∧
  referrer_base w r = take (jerry_port_get_directory_end (r_path rec)) (r_path rec).
Proof.
  intros (Hl & _ & Hb) Hin Hr.
  destruct (lseg_lookup _ _ _ _ _ _ Hl Hin) as (m & Hm & Hrec).
  rewrite list.Forall_forall in Hb. specialize (Hb _ Hin). unfold base_ok in Hb.
  subst rec. simpl in Hb. unfold live_referrer, referrer_base. rewrite Hr, Hm. split.
  - exists m. split; [reflexivity|]. rewrite Hb. unfold jerry_port_get_directory_end.
    pose proof (directory_end_loop_le (path_p m) (strlen (path_p m))).
    pose proof (strlen_le (path_p m)). lia.
  - simpl. by rewrite Hb.
Qed.

(** X10. When the referrer carries a record of a well-formed cache, the
    resolver builds the path of an import from the directory part of the
    path of that record followed by the specifier, and makes it canonical
    where [realpath] can. *)
Theorem import_is_relative_to_referrer_directory s r w l a rec :
  cache_inv w l → (a, rec) ∈ l → referrer_record w r = Some a → mallocs_ok 2 w →
  let raw := take (jerry_port_get_directory_end (r_path rec)) (r_path rec)
             ++ string_bytes (w_engine w) s in
  ∃ w1, jerry_port_module_resolve_path s r w =
          Ok (string_bytes (w_engine w) s,
              Some (default raw (p_realpath (w_platform w) (cstr raw)))) w1.
Proof.
  intros Hinv Hin Hr Hok raw.
  destruct (cached_referrer w l a rec r Hinv Hin Hr) as (Hlive & Hbase).
  destruct (resolve_path_outcome s r w Hlive) as (res & w1 & Hpath & _ & _ & _ & Hsome).
  { exact (mallocs_ok_head 2 0 _ Hok ltac:(lia)). }
  rewrite (Hsome ltac:(rewrite <- (drop_0 (p_oom _)), tail_drop;
                       exact (mallocs_ok_head 2 1 _ Hok ltac:(lia)))) in Hpath.
  rewrite Hbase in Hpath. eauto.
Qed.

Lemma import_is_relative_witness :
  ∃ w1, jerry_port_module_resolve_path (jerry_string_value 4) example_module loaded_world =
          Ok (bytes "lib.js", Some (bytes "/proj/" ++ bytes "lib.js")) w1.
Proof.
  destruct (import_is_relative_to_referrer_directory (jerry_string_value 4) example_module
              loaded_world loaded_cache 1%positive
              {| r_path := bytes "/proj/lib.js"; r_base := 6;
                 r_realm := example_realm; r_module := example_module |}) as (w1 & Hpath).
  - exact loaded_cache_inv.
  - left.
  - vm_compute. reflexivity.
  - unfold mallocs_ok. simpl. apply not_elem_of_nil.
  - exists w1. exact Hpath.
Defined.

(** The file that a call reads whole. *)
Lemma read_source_regular path w f :
  regular_file w path f → malloc_ok w → length (f_data f) ≤ f_fread f →
  ∃ w3, jerry_port_read_source path w = Ok (Some (f_data f)) w3 ∧
    p_oom (w_platform w3) = tail (p_oom (w_platform w)).
Proof.
  intros (Hf & Hdir & Hopen) Hok Hfread.
  destruct (read_source_spec path w) as (res & w3 & Hread & _ & _ & _ & _ & Hres).
  rewrite Hf, Hdir, Hopen in Hres. simpl in Hres.
  destruct (Hres Hok Hfread) as (-> & Hoom). eauto.
Qed.

(** The file that a call fails to read. *)
Lemma read_source_fails path w f :
  regular_file w path f →
  head (p_oom (w_platform w)) = Some true ∨ f_fread f < length (f_data f) →
  ∃ format w3, jerry_port_read_source path w = Ok None w3 ∧
    w_trace w3 = w_trace w ++ [ev_read_source (cstr path); ev_log format (cstr path)].
Proof.
  intros (Hf & Hdir & Hopen) Hbad.
  destruct (read_source_outcome path w) as (res & w3 & Hread & _ & _ & _ & _ & _ & Hres).
  destruct res as [buf|].
  - exfalso. destruct Hres as (f' & (Hf' & _) & Hok & Hlen & _).
    rewrite Hf in Hf'. injection Hf' as <-. destruct Hbad as [Hbad|Hbad]; [by apply Hok | lia].
  - destruct Hres as ((format & Htr) & _). eauto.
Qed.

(** X11. The allocation of the module record is not checked: when the
    buffers of the path and of the source have been allocated, the file has
    been read and parsed, and the fourth allocation fails,
    [jerry_port_module_resolve] writes through NULL. *)
Theorem resolve_crashes_when_record_allocation_fails s r w l f :
  let path := resolved_path w s r in
  let ret := e_parse (w_engine w) (f_data f) (string_bytes (w_engine w) s) in
  cache_is w l → live_referrer w r → mallocs_ok 3 w →
  p_oom (w_platform w) !! 3 = Some true →
  cache_miss w l path → regular_file w path f → length (f_data f) ≤ f_fread f →
  jerry_value_is_exception ret = false →
  jerry_port_module_resolve s r w = Crash.
Proof.
  intros path ret Hl Hlive Hok Hoom Hmiss Hfile Hfread Hexc.
  destruct (resolve_reaches_load s r w l Hl Hlive (mallocs_ok_le 2 3 w ltac:(lia) Hok) Hmiss)
    as (w2 & Hres & _ & _ & _ & Hfs2 & Hoom2 & _ & Hp2 & _).
  fold path in Hres. rewrite Hres.
  destruct (read_source_regular path w2 f) as (w3 & Hread & Hoom3).
  { by apply (regular_file_same w). }
  { unfold malloc_ok. rewrite Hoom2. exact (mallocs_ok_head 3 2 _ Hok ltac:(lia)). }
  { assumption. }
  destruct (resolve_load_outcome (string_bytes (w_engine w) s) path (e_realm (w_engine w)) w2)
    as (src & w3' & Hread' & Hload).
  rewrite Hread in Hread'. injection Hread' as <- <-.
  cbn zeta in Hload. rewrite Hp2 in Hload. fold ret in Hload. rewrite Hexc in Hload.
  rewrite bool_decide_true in Hload; [exact Hload|].
  rewrite Hoom3, Hoom2, tail_drop, head_lookup, lookup_drop, Nat.add_0_r. exact Hoom.
Qed.

Lemma resolve_record_allocation_witness :
  jerry_port_module_resolve (jerry_string_value 1) jerry_undefined_value oom_world_4 = Crash.
Proof.
  apply (resolve_crashes_when_record_allocation_fails (jerry_string_value 1)
           jerry_undefined_value oom_world_4 [] example_file).
  - reflexivity.
  - exact I.
  - apply (bool_decide_unpack _). vm_compute. exact I.
  - reflexivity.
  - apply not_elem_of_nil.
  - split; [vm_compute; reflexivity|]. split; reflexivity.
  - vm_compute. lia.
  - reflexivity.
Defined.

(** X12. When the file of a module exists and can be opened, but the buffer
    for its content cannot be allocated or [fread] delivers fewer bytes than
    the file has, the resolver reports the same syntax error as for a file
    that is missing, ["Module file not found"]; the parser is not called and
    the cache is as it was. *)
Theorem resolve_reports_failed_read_as_missing_file s r w l f :
  let path := resolved_path w s r in
  cache_is w l → live_referrer w r → mallocs_ok 2 w → cache_miss w l path →
  regular_file w path f →
  p_oom (w_platform w) !! 2 = Some true ∨ f_fread f < length (f_data f) →
  ∃ ref w', jerry_port_module_resolve s r w = Ok (jerry_exception_value ref) w' ∧
    e_errors (w_engine w') !! ref = Some (JERRY_ERROR_SYNTAX, "Module file not found") ∧
    w_heap w' = w_heap w ∧ w_manager w' = w_manager w ∧
    ∃ format, w_trace w' =
                w_trace w ++ [ev_read_source (cstr path); ev_log format (cstr path)].
Proof.
  intros path Hl Hlive Hok Hmiss Hfile Hbad.
  destruct (resolve_reaches_load s r w l Hl Hlive Hok Hmiss)
    as (w2 & Hres & Hh2 & Hm2 & Htr2 & Hfs2 & Hoom2 & _).
  fold path in Hres. rewrite Hres.
  destruct (read_source_fails path w2 f) as (format & w3 & Hread & Htr3).
  { by apply (regular_file_same w). }
  { destruct Hbad as [Hbad|Hbad]; [left | by right].
    rewrite Hoom2, head_lookup, lookup_drop, Nat.add_0_r. exact Hbad. }
  destruct (resolve_load_outcome (string_bytes (w_engine w) s) path (e_realm (w_engine w)) w2)
    as (src & w3' & Hread' & Hload).
  rewrite Hread in Hread'. injection Hread' as <- <-.
  destruct Hload as (ref & w' & Hload & Herr & Hh & Hm & Htr & _).
  exists ref, w'. split; [exact Hload|]. split; [exact Herr|].
  split; [congruence|]. split; [congruence|].
  exists format. rewrite Htr, Htr3, Htr2. reflexivity.
Qed.

Lemma resolve_failed_read_witness :
  ∃ ref w', jerry_port_module_resolve (jerry_string_value 1) jerry_undefined_value
              oom_world_3 = Ok (jerry_exception_value ref) w' ∧
    e_errors (w_engine w') !! ref = Some (JERRY_ERROR_SYNTAX, "Module file not found") ∧
    w_heap w' = w_heap oom_world_3.
Proof.
  destruct (resolve_reports_failed_read_as_missing_file (jerry_string_value 1)
              jerry_undefined_value oom_world_3 [] example_file)
    as (ref & w' & Hres & Herr & Hh & _).
  - reflexivity.
  - exact I.
  - apply (bool_decide_unpack _). vm_compute. exact I.
  - apply not_elem_of_nil.
  - split; [vm_compute; reflexivity|]. split; reflexivity.
  - left. reflexivity.
  - exists ref, w'. auto.
Defined.

(** ** Resolving and releasing *)

(** A record is its link and what [record_of] keeps. *)
Lemma module_eq (m m' : jerry_port_module_t) :
  next_p m = next_p m' → record_of m = record_of m' → m = m'.
Proof. destruct m, m'. unfold record_of. simpl. intros -> [= -> -> -> ->]. reflexivity. Qed.

(** Two heaps that hold the same list hold the same cells along it. *)
Lemma lseg_same_cells (h h' : gmap ptr jerry_port_module_t) l : ∀ p p',
  lseg h p l None → lseg h' p' l None → p = p' ∧ ∀ b, b ∈ l.*1 → h !! b = h' !! b.
Proof.
  induction l as [|[a r] l IH]; intros p p'; simpl.
  - intros -> ->. split; [reflexivity|]. intros b Hb. by apply elem_of_nil in Hb.
  - intros (-> & m & Hm & Hr & Hl) (-> & m' & Hm' & Hr' & Hl').
    destruct (IH _ _ Hl Hl') as (Hnext & Hcells). split; [reflexivity|].
    assert (m = m') as <- by (apply module_eq; congruence).
    intros b Hb. apply elem_of_cons in Hb as [->|Hb]; [congruence | by apply Hcells].
Qed.

Lemma manager_eq (m m' : jerry_port_module_manager_t) :
  module_head_p m = module_head_p m' → m = m'.
Proof. destruct m, m'. simpl. by intros ->. Qed.

Lemma filter_all {A} (f : A → bool) (l : list A) :
  (∀ x, x ∈ l → f x = true) → List.filter f l = l.
Proof.
  induction l as [|x l IH]; intros H; [reflexivity|]. simpl.
  rewrite (H x) by left. f_equal. apply IH. intros y Hy. apply H. by right.
Qed.

Lemma filter_none {A} (f : A → bool) (l : list A) :
  (∀ x, x ∈ l → f x = true) → List.filter (λ x, negb (f x)) l = [].
Proof.
  induction l as [|x l IH]; intros H; [reflexivity|]. simpl.
  rewrite (H x) by left. apply IH. intros y Hy. apply H. by right.
Qed.

(** Dropping the two references that a resolution took. *)
Lemma drop_add_refs v1 v2 (c c' : jerry_value_t → nat) :
  (∀ x, c' x = add_ref v2 (add_ref v1 c) x) →
  ∀ x, drop_ref v2 (drop_ref v1 c') x = c x.
Proof.
  intros Hc x. unfold drop_ref.
  destruct (decide (x = v2)) as [->|Hx2].
  - rewrite fn_lookup_insert. destruct (decide (v2 = v1)) as [->|H21].
    + rewrite fn_lookup_insert, Hc. unfold add_ref. rewrite !fn_lookup_insert. reflexivity.
    + rewrite fn_lookup_insert_ne by congruence. rewrite Hc. unfold add_ref.
      rewrite fn_lookup_insert, fn_lookup_insert_ne by congruence. reflexivity.
  - rewrite fn_lookup_insert_ne by congruence. destruct (decide (x = v1)) as [->|Hx1].
    + rewrite fn_lookup_insert, Hc. unfold add_ref.
      rewrite fn_lookup_insert_ne, fn_lookup_insert by congruence. reflexivity.
    + rewrite fn_lookup_insert_ne, Hc by congruence. unfold add_ref.
      rewrite !fn_lookup_insert_ne by congruence. reflexivity.
Qed.

(** A release that frees no record of a cache leaves the heap and the
    manager as they are. *)
Lemma release_same_list w w' l :
  cache_is w l → cache_is w' l →
  (∀ a, a ∉ l.*1 → w_heap w' !! a = w_heap w !! a) →
  w_heap w' = w_heap w ∧ w_manager w' = w_manager w.
Proof.
  intros Hl Hl' Hframe.
  destruct (lseg_same_cells _ _ _ _ _ Hl Hl') as (Hhead & Hcells). split.
  - apply map_eq. intros b. destruct (decide (b ∈ l.*1)) as [Hb|Hb].
    + symmetry. by apply Hcells.
    + by apply Hframe.
  - symmetry. by apply manager_eq.
Qed.

(** X13. Releasing the current realm undoes a first resolution: when the
    cache held no record that this release frees, the heap of records and the
    module manager are back as they were before the resolution, and so is
    every reference count. *)
Theorem release_undoes_resolve s r w l f :
  let path := resolved_path w s r in
  let ret := e_parse (w_engine w) (f_data f) (string_bytes (w_engine w) s) in
  cache_is w l → live_referrer w r → mallocs_ok 4 w →
  cache_miss w l path → regular_file w path f → length (f_data f) ≤ f_fread f →
  jerry_value_is_exception ret = false →
  (∀ e, e ∈ l → kept (e_realm (w_engine w)) e = true) →
  ∃ w' w'', jerry_port_module_resolve s r w = Ok ret w' ∧
    jerry_port_module_release (e_realm (w_engine w)) w' = Ok tt w'' ∧
    w_heap w'' = w_heap w ∧ w_manager w'' = w_manager w ∧
    ∀ x, e_refs (w_engine w'') x = e_refs (w_engine w) x.
Proof.
  intros path ret Hl Hlive Hok Hmiss Hfile Hfread Hexc Hkept.
  destruct (resolve_success s r w l f Hl Hlive Hok Hmiss Hfile Hfread Hexc)
    as (w' & Hres & Hh & Hm & _ & _ & Hrefs).
  fold path ret in Hh, Hrefs, Hres.
  set (a := fresh (dom (w_heap w))) in *.
  set (rec := {| r_path := path; r_base := jerry_port_get_directory_end path;
                 r_realm := e_realm (w_engine w); r_module := ret |}).
  assert (Ha : a ∉ l.*1) by (by apply cache_is_fresh).
  assert (Hl' : cache_is w' ((a, rec) :: l)).
  { unfold cache_is. rewrite Hh, Hm. simpl. split; [reflexivity|].
    eexists. rewrite lookup_insert_eq. split; [reflexivity|]. split; [reflexivity|]. simpl.
    by apply lseg_insert_frame. }
  assert (Hgone : kept (e_realm (w_engine w)) (a, rec) = false).
  { unfold kept. simpl. rewrite bool_decide_true by reflexivity.
    by rewrite orb_true_r. }
  destruct (module_free_spec (e_realm (w_engine w)) w' _ Hl')
    as (w'' & _ & Hfree & Hl'' & Hframe & Hfreed & He'' & _).
  simpl in Hl'', He''. rewrite Hgone in Hl'', He''. simpl in He''.
  rewrite (filter_all _ _ Hkept) in Hl''. rewrite (filter_none _ _ Hkept) in He''.
  exists w', w''. split; [exact Hres|]. split; [exact Hfree|].
  assert (Hheap : w_heap w'' = w_heap w).
  { apply map_eq. intros b. destruct (decide (b = a)) as [->|Hba].
    - pose proof (Hfreed (a, rec) ltac:(left) Hgone) as Hfa. simpl in Hfa. rewrite Hfa.
      symmetry. apply not_elem_of_dom, is_fresh.
    - destruct (decide (b ∈ l.*1)) as [Hb|Hb].
      + destruct (lseg_same_cells _ _ _ _ _ Hl Hl'') as (_ & Hcells). symmetry. by apply Hcells.
      + rewrite Hframe.
        * rewrite Hh. by apply lookup_insert_ne.
        * simpl. rewrite not_elem_of_cons. auto. }
  split; [exact Hheap|]. split.
  - destruct (lseg_same_cells _ _ _ _ _ Hl Hl'') as (Hhead & _). symmetry. by apply manager_eq.
  - intros x. rewrite He''. simpl. apply drop_add_refs. exact Hrefs.
Qed.

Lemma release_undoes_resolve_witness :
  ∃ w' w'', jerry_port_module_resolve (jerry_string_value 4) example_module guest_world =
              Ok example_module w' ∧
    jerry_port_module_release other_realm w' = Ok tt w'' ∧
    w_heap w'' = w_heap guest_world ∧ w_manager w'' = w_manager guest_world.
Proof.
  destruct (release_undoes_resolve (jerry_string_value 4) example_module guest_world
              loaded_cache example_file) as (w' & w'' & Hres & Hrel & Hh & Hm & _).
  - exact guest_cache_is.
  - exact guest_referrer_live.
  - unfold mallocs_ok. simpl. apply not_elem_of_nil.
  - apply (bool_decide_unpack _). vm_compute. exact I.
  - split; [vm_compute; reflexivity|]. split; reflexivity.
  - vm_compute. lia.
  - reflexivity.
  - intros e He. apply list_elem_of_singleton in He as ->. reflexivity.
  - exists w', w''. auto.
Defined.

(** X14. Releasing is idempotent: on any cache a release returns, and the
    same release made again returns and leaves the world exactly as the
    first one left it. *)
Theorem release_twice_is_release_once realm_filter w l :
  cache_is w l →
  ∃ w', jerry_port_module_release realm_filter w = Ok tt w' ∧
    jerry_port_module_release realm_filter w' = Ok tt w'.
Proof.
  intros Hl.
  destruct (module_free_spec realm_filter w l Hl) as (w' & _ & Hfree & Hl' & _).
  exists w'. split; [exact Hfree|].
  destruct (module_free_spec realm_filter w' _ Hl')
    as (w'' & _ & Hfree' & Hl'' & Hframe & _ & He'' & Hp'' & Htr'').
  assert (Hkept : ∀ e, e ∈ List.filter (kept realm_filter) l → kept realm_filter e = true).
  { intros e He. by apply elem_of_filter in He as [_ He]. }
  rewrite (filter_all _ _ Hkept) in Hl''. rewrite (filter_none _ _ Hkept) in He''.
  destruct (release_same_list w' w'' _ Hl' Hl'' Hframe) as (Hh & Hm).
  unfold jerry_port_module_release. rewrite Hfree'. f_equal.
  apply world_eq; try assumption.
  rewrite He''. apply set_refs_id.
Qed.

Lemma release_twice_witness :
  ∃ w', jerry_port_module_release example_realm two_realms_world = Ok tt w' ∧
    jerry_port_module_release example_realm w' = Ok tt w'.
Proof.
  apply (release_twice_is_release_once example_realm two_realms_world two_realms_cache).
  exact two_realms_cache_is.
Defined.

(** ** Referrers, progress and references *)

(** The first part of the resolver reads the record of its referrer. *)
Lemma resolve_path_dead_referrer s r w a :
  referrer_record w r = Some a → w_heap w !! a = None →
  jerry_port_module_resolve_path s r w = Crash.
Proof.
  intros Hr Ha. unfold jerry_port_module_resolve_path.
  bind_step (jerry_object_get_native_ptr_eq _ _).
  fold (referrer_record w r). rewrite Hr.
  apply bind_Crash. apply bind_Crash. unfold load. rewrite Ha. reflexivity.
Qed.

(** X15. A release frees the records but does not detach them from their
    module objects: an object that carried a released record still carries
    its address, and a resolution with that object as referrer reads the
    freed record (a crash in this model). *)
Theorem resolve_after_release_reads_freed_record s r realm_filter w l a rec w' :
  cache_is w l → (a, rec) ∈ l → kept realm_filter (a, rec) = false →
  referrer_record w r = Some a →
  jerry_port_module_release realm_filter w = Ok tt w' →
  referrer_record w' r = Some a ∧ w_heap w' !! a = None ∧
  jerry_port_module_resolve s r w' = Crash.
Proof.
  intros Hl Hin Hkept Hr Hrel.
  destruct (module_free_spec realm_filter w l Hl) as (w'' & _ & Hfree & _ & _ & Hgone & He & _).
  unfold jerry_port_module_release in Hrel. rewrite Hfree in Hrel. injection Hrel as <-.
  assert (Hr' : referrer_record w'' r = Some a).
  { unfold referrer_record in *. rewrite He. exact Hr. }
  pose proof (Hgone _ Hin Hkept) as Ha. simpl in Ha.
  split; [exact Hr'|]. split; [exact Ha|].
  unfold jerry_port_module_resolve. apply bind_Crash.
  by apply (resolve_path_dead_referrer s r w'' a).
Qed.

Lemma resolve_after_release_witness :
  jerry_port_module_resolve (jerry_string_value 4) example_module
    (world_after (jerry_port_module_release example_realm loaded_world)) = Crash.
Proof.
  apply (resolve_after_release_reads_freed_record (jerry_string_value 4) example_module
           example_realm loaded_world loaded_cache 1%positive
           {| r_path := bytes "/proj/lib.js"; r_base := 6;
              r_realm := example_realm; r_module := example_module |}).
  - exact loaded_cache_is.
  - left.
  - reflexivity.
  - vm_compute. reflexivity.
  - apply (world_after_eq (jerry_port_module_release example_realm loaded_world) tt).
    vm_compute. reflexivity.
Defined.

(** X16. On a cache whose list ends at NULL, with a referrer that carries no
    record or a live one, and when none of the next four allocations fails,
    [jerry_port_module_resolve] returns: it neither crashes nor runs
    forever. *)
Theorem resolve_returns s r w l :
  cache_is w l → live_referrer w r → mallocs_ok 4 w →
  ∃ v w', jerry_port_module_resolve s r w = Ok v w'.
Proof.
  intros Hl Hlive Hok.
  pose proof (mallocs_ok_le 2 4 w ltac:(lia) Hok) as Hok2.
  destruct (find (matches (e_realm (w_engine w)) (resolved_path w s r)) l) as [e|] eqn:Hfind.
  - destruct (resolve_reaches_hit s r w l e Hl Hlive Hok2 Hfind) as (w' & Hres & _). eauto.
  - apply find_matches_None in Hfind.
    destruct (resolve_reaches_load s r w l Hl Hlive Hok2 Hfind)
      as (w2 & Hres & _ & _ & _ & _ & Hoom2 & _).
    rewrite Hres.
    destruct (resolve_load_outcome (string_bytes (w_engine w) s) (resolved_path w s r)
                (e_realm (w_engine w)) w2) as (src & w3 & Hread & Hload).
    destruct src as [source|].
    + cbn zeta in Hload. destruct (jerry_value_is_exception _).
      * destruct Hload as (w' & Hload & _). eauto.
      * rewrite bool_decide_false in Hload; [destruct Hload as (w' & Hload & _); eauto|].
        destruct (read_source_outcome (resolved_path w s r) w2)
          as (src' & w3' & Hread' & _ & _ & _ & _ & _ & Hsrc).
        rewrite Hread in Hread'. injection Hread' as <- <-.
        destruct Hsrc as (f & _ & _ & _ & _ & _ & Hoom3).
        rewrite Hoom3, Hoom2, tail_drop. exact (mallocs_ok_head 4 3 _ Hok ltac:(lia)).
    + destruct Hload as (ref & w' & Hload & _). eauto.
Qed.

Lemma resolve_returns_witness :
  ∃ v w', jerry_port_module_resolve (jerry_string_value 3) example_module guest_world =
            Ok v w'.
Proof.
  apply (resolve_returns (jerry_string_value 3) example_module guest_world loaded_cache).
  - exact guest_cache_is.
  - exact guest_referrer_live.
  - unfold mallocs_ok. simpl. apply not_elem_of_nil.
Defined.

(** The trace that the last part of the resolver leaves starts with the
    read of the file. *)
Lemma resolve_load_traced in_path path realm_v w v w' :
  jerry_port_module_resolve_load in_path path realm_v w = Ok v w' →
  ∃ t, w_trace w' = w_trace w ++ ev_read_source (cstr path) :: t.
Proof.
  intros Hres.
  destruct (resolve_load_outcome in_path path realm_v w) as (src & w3 & Hread & Hload).
  destruct (read_source_traced _ _ _ _ Hread) as (t & Htr3).
  destruct src as [source|].
  - cbn zeta in Hload. destruct (jerry_value_is_exception _).
    + destruct Hload as (w'' & Hload & _ & _ & Htr & _).
      rewrite Hres in Hload. injection Hload as _ <-.
      eexists. rewrite Htr, Htr3, <- app_assoc. reflexivity.
    + case_bool_decide; [congruence|].
      destruct Hload as (w'' & Hload & _ & _ & Htr & _).
      rewrite Hres in Hload. injection Hload as _ <-.
      eexists. rewrite Htr, Htr3, <- app_assoc. reflexivity.
  - destruct Hload as (ref & w'' & Hload & _ & _ & _ & Htr & _).
    rewrite Hres in Hload. injection Hload as _ <-.
    eexists. rewrite Htr, Htr3. reflexivity.
Qed.

(** X17. A resolution that returns has called [jerry_port_read_source] on the
    path it built exactly when the cache held no record for the current
    realm and that path: a record of another realm for the same path is not
    served. *)
Theorem resolve_reads_file_iff_not_cached s r w l v w' :
  let path := resolved_path w s r in
  cache_is w l → live_referrer w r → mallocs_ok 2 w →
  jerry_port_module_resolve s r w = Ok v w' →
  cache_miss w l path ↔ ∃ t, w_trace w' = w_trace w ++ ev_read_source (cstr path) :: t.
Proof.
  intros path Hl Hlive Hok Hres. split.
  - intros Hmiss.
    destruct (resolve_reaches_load s r w l Hl Hlive Hok Hmiss)
      as (w2 & Hres2 & _ & _ & Htr2 & _).
    rewrite Hres2 in Hres. apply resolve_load_traced in Hres as (t & Htr).
    exists t. by rewrite <- Htr2.
  - intros (t & Htr).
    destruct (find (matches (e_realm (w_engine w)) path) l) as [e|] eqn:Hfind.
    + exfalso.
      destruct (resolve_reaches_hit s r w l e Hl Hlive Hok Hfind) as (w'' & Hhit & Htr' & _).
      rewrite Hres in Hhit. injection Hhit as _ <-.
      rewrite Htr' in Htr. apply (f_equal length) in Htr.
      rewrite length_app in Htr. simpl in Htr. lia.
    + by apply find_matches_None.
Qed.

Lemma resolve_reads_file_witness :
  cache_miss guest_world loaded_cache
    (resolved_path guest_world (jerry_string_value 4) example_module) ↔
  ∃ t, w_trace (world_after (jerry_port_module_resolve (jerry_string_value 4) example_module
                               guest_world)) =
       w_trace guest_world ++
       ev_read_source (cstr (resolved_path guest_world (jerry_string_value 4) example_module))
       :: t.
Proof.
  apply (resolve_reads_file_iff_not_cached (jerry_string_value 4) example_module guest_world
           loaded_cache example_module).
  - exact guest_cache_is.
  - exact guest_referrer_live.
  - unfold mallocs_ok. simpl. apply not_elem_of_nil.
  - apply (world_after_eq (jerry_port_module_resolve (jerry_string_value 4) example_module
                             guest_world) example_module).
    vm_compute. reflexivity.
Defined.

Lemma jerry_throw_sz_refs kind message w v w' :
  jerry_throw_sz kind message w = Ok v w' →
  ∀ x, e_refs (w_engine w') x = add_ref v (e_refs (w_engine w)) x.
Proof.
  unfold jerry_throw_sz, jerry_value_copy, modify, get, mbind, M_bind, mret, M_ret.
  intros [= <- <-] x. reflexivity.
Qed.

(** X18. A resolution that returns an exception keeps no reference: the
    reference it took on the realm (and the one on the source name) has been
    given back, so every count other than that of the exception itself is as
    before the call. *)
Theorem failed_resolution_keeps_no_reference s r w l v w' :
  cache_is w l →
  jerry_port_module_resolve s r w = Ok v w' →
  jerry_value_is_exception v = true →
  ∀ x, x ≠ v → e_refs (w_engine w') x = e_refs (w_engine w) x.
Proof.
  intros Hl Hres Hexc x Hx.
  destruct (jerry_port_module_resolve_path s r w) as [[in_path [path|]] w1| |] eqn:Hpath.
  - pose proof (resolve_path_frame _ _ _ _ _ Hpath) as (He & _).
    rewrite (resolve_after_path _ _ _ _ _ _ _ Hpath Hl) in Hres.
    assert (Hrealm : ∀ y, drop_ref (e_realm (w_engine w)) (e_refs (w_engine (enter_realm w1))) y
                          = e_refs (w_engine w) y).
    { intros y. cbn. rewrite He. exact (drop_add_ref _ (e_refs (w_engine w)) y). }
    destruct (find (matches (e_realm (w_engine w)) path) l) as [e|].
    + rewrite (bind_Ok _ _ _ _ _ (jerry_value_free_eq _ _)), jerry_value_copy_eq in Hres.
      injection Hres as <- <-. cbn [w_engine with_engine set_refs e_refs].
      rewrite fn_lookup_insert_ne by congruence. apply Hrealm.
    + destruct (resolve_load_outcome in_path path (e_realm (w_engine w)) (enter_realm w1))
        as (src & w3 & _ & Hload).
      destruct src as [source|].
      * cbn zeta in Hload.
        destruct (jerry_value_is_exception
                    (e_parse (w_engine (enter_realm w1)) source in_path)) eqn:Hret.
        -- destruct Hload as (w'' & Hload & _ & _ & _ & _ & Hrefs).
           rewrite Hres in Hload. injection Hload as _ <-. rewrite Hrefs. apply Hrealm.
        -- case_bool_decide; [congruence|].
           destruct Hload as (w'' & Hload & _).
           rewrite Hres in Hload. injection Hload as Hv _.
           change (jerry_value_is_exception (e_parse (w_engine w1) source in_path) = false)
             in Hret.
           congruence.
      * destruct Hload as (ref & w'' & Hload & _ & _ & _ & _ & _ & Hrefs).
        rewrite Hres in Hload. injection Hload as -> <-. rewrite Hrefs.
        unfold add_ref. rewrite fn_lookup_insert_ne by congruence. apply Hrealm.
  - pose proof (resolve_path_frame _ _ _ _ _ Hpath) as (He & _).
    unfold jerry_port_module_resolve in Hres. rewrite (bind_Ok _ _ _ _ _ Hpath) in Hres.
    cbn beta iota in Hres. rewrite (jerry_throw_sz_refs _ _ _ _ _ Hres), He.
    unfold add_ref. by rewrite fn_lookup_insert_ne by congruence.
  - unfold jerry_port_module_resolve, mbind, M_bind in Hres. rewrite Hpath in Hres.
    discriminate.
  - unfold jerry_port_module_resolve, mbind, M_bind in Hres. rewrite Hpath in Hres.
    discriminate.
Qed.

Lemma failed_resolution_witness :
  e_refs (w_engine busy_world) example_realm = e_refs (w_engine loaded_world) example_realm.
Proof.
  apply (failed_resolution_keeps_no_reference (jerry_string_value 2) jerry_undefined_value
           loaded_world loaded_cache example_parse_error busy_world).
  - exact loaded_cache_is.
  - apply (world_after_eq (jerry_port_module_resolve (jerry_string_value 2)
                             jerry_undefined_value loaded_world) example_parse_error).
    vm_compute. reflexivity.
  - reflexivity.
  - discriminate.
Defined.
